(** * Gramps Web API: the person resource's query pipeline

    A shallow embedding of [gramps_webapi/api/resources/person.py]
    ([PersonResourceHelper.object_extend]) together with the rule-set
    combinator, the sort engine and the profile helper that the resource
    layer consumes.  Python objects are records whose dynamically attached
    attributes are optional fields, dictionaries are finite maps keyed by
    strings, list comprehensions are sequenced maps in an exception monad,
    and the in-place updates of [obj] are threaded through a state monad. *)

From Stdlib Require Import ZArith Lia Bool.
From Stdlib Require Import OrdersEx.
From stdpp Require Import base option list strings gmap sets sorting.

Local Open Scope string_scope.
Local Open Scope Z_scope.

(** ** Python values and exceptions *)

Abbreviation Handle := string.

Inductive Kind :=
  KCitation | KEvent | KFamily | KMedia | KNote | KPerson | KTag.

(** An object fetched from the store: its class, handle and Gramps id. *)
Record Entity := mkEntity {
  ent_kind : Kind;
  ent_handle : Handle;
  ent_gramps_id : string
}.

#[warnings="-register-all"]
Inductive PyVal :=
  | PyNone
  | PyBool (b : bool)
  | PyStr (s : string)
  | PyObj (e : Entity)
  | PyList (l : list PyVal)
  | PyDict (d : list (string * PyVal)).

(** Python's truth test, as [if self.build_profile:] applies it. *)
Definition truthy (v : PyVal) : bool :=
  match v with
  | PyNone => false
  | PyBool b => b
  | PyStr s => negb (String.eqb s "")
  | PyObj _ => true
  | PyList l => negb (Nat.eqb (length l) 0)
  | PyDict d => negb (Nat.eqb (length d) 0)
  end.

Inductive PyExc :=
  | HandleError (h : string)
  | OtherError (name : string).

Inductive result (A : Type) :=
  | Ok (a : A)
  | Raise (e : PyExc).
Arguments Ok {A} a.
Arguments Raise {A} e.

Definition rbind {A B} (r : result A) (k : A → result B) : result B :=
  match r with
  | Ok a => k a
  | Raise e => Raise e
  end.

(** [[f(h) for h in l]]: the calls run left to right and the first
    exception leaves the comprehension; otherwise every element of [l]
    contributes exactly one element. *)
Fixpoint comprehension {A B} (f : A → result B) (l : list A) : result (list B) :=
  match l with
  | [] => Ok []
  | h :: t =>
      rbind (f h) (λ v, rbind (comprehension f t) (λ vs, Ok (v :: vs)))
  end.

(** The call returned normally. *)
Definition is_ok {A} (r : result A) : Prop := ∃ a, r = Ok a.

(** The keys of a dictionary value, in the order they were written. *)
Definition dict_keys (v : PyVal) : list string :=
  match v with
  | PyDict d => d.*1
  | _ => []
  end.

(** A lookup resolves when it returns an entity of the store. *)
Definition resolved (r : result PyVal) : option PyVal :=
  match r with
  | Ok (PyObj e) => Some (PyObj e)
  | _ => None
  end.

(** The entities of the handles that resolve, in the order of the list. *)
Definition resolved_members (f : Handle → result PyVal) (l : list Handle) : list PyVal :=
  omap (λ h, resolved (f h)) l.

(** ** Entities *)

Inductive Gender := Female | Male | UnknownGender.

#[global] Instance Gender_eq_dec : EqDecision Gender.
Proof. solve_decision. Defined.

(** The JSON encoding of the gender field (0, 1, 2). *)
Definition gender_code (g : Gender) : Z :=
  match g with Female => 0 | Male => 1 | UnknownGender => 2 end.

(** A reference record: a handle plus auxiliary metadata (the role of an
    event reference, the relation of a person reference, ...). *)
Record Ref := mkRef {
  ref : Handle;
  ref_meta : string
}.

#[global] Instance Ref_eq_dec : EqDecision Ref.
Proof. solve_decision. Defined.

(** The fields of a Gramps [Person] that the pipeline reads. *)
Record Person := mkPerson {
  handle : Handle;
  gramps_id : string;
  gender : Gender;
  change : Z;
  private : bool;
  citation_list : list Handle;
  event_ref_list : list Ref;
  family_list : list Handle;
  parent_family_list : list Handle;
  media_list : list Ref;
  note_list : list Handle;
  person_ref_list : list Ref;
  tag_list : list Handle
}.

#[global] Instance Person_eq_dec : EqDecision Person.
Proof. solve_decision. Defined.

(** The Python object [obj]: the entity's own fields and the two attributes
    [object_extend] may attach to it. *)
Record PersonObj := mkObj {
  fields : Person;
  profile : option PyVal;
  extended : option (gmap string PyVal)
}.

(** An object as the store hands it out: no attribute attached yet. *)
Definition from_store (p : Person) : PersonObj :=
  {| fields := p; profile := None; extended := None |}.

(** ** The collaborators of [object_extend]

    [person.py] imports everything it calls: the database's read API
    ([db.get_*_from_handle]), the [Person] method
    [get_main_parents_family_handle], and the helpers of the [util] module.
    None of them is defined in [person.py], so they are the methods of an
    interface over the database type.  They read the entity they are given
    and the store, and return a value or raise; the entity they see is the
    record of its fields. *)
Class Collaborators (Db : Type) := {
  get_citation_from_handle : Db → Handle → result PyVal;
  get_note_from_handle : Db → Handle → result PyVal;
  get_tag_from_handle : Db → Handle → result PyVal;
  get_main_parents_family_handle : Person → option Handle;
  get_family_by_handle : Db → option Handle → result PyVal;
  get_events_for_references : Db → Person → result PyVal;
  get_media_for_references : Db → Person → result PyVal;
  get_people_for_references : Db → Person → result PyVal;
  get_person_profile_for_object :
    Db → Person → ∀ (with_family with_events : bool), result PyVal
}.

(** ** The state-and-exception monad of a method that updates [obj] *)

Definition M (A : Type) : Type := PersonObj → PersonObj * result A.

Definition ret {A} (a : A) : M A := λ obj, (obj, Ok a).

Definition bind {A B} (m : M A) (k : A → M B) : M B :=
  λ obj, match m obj with
         | (obj', Ok a) => k a obj'
         | (obj', Raise e) => (obj', Raise e)
         end.

Definition lift {A} (r : result A) : M A := λ obj, (obj, r).

Definition get_obj : M PersonObj := λ obj, (obj, Ok obj).

(** [obj.profile = v] *)
Definition set_profile (v : PyVal) : M unit :=
  λ obj, ({| fields := fields obj; profile := Some v; extended := extended obj |}, Ok tt).

(** [obj.extended = d] *)
Definition set_extended (d : gmap string PyVal) : M unit :=
  λ obj, ({| fields := fields obj; profile := profile obj; extended := Some d |}, Ok tt).

Definition when (b : bool) (m : M unit) : M unit :=
  if b then m else ret tt.

(** Both monads use stdpp's [x ← m; k] and [m;; k]. *)
#[global] Instance result_ret : MRet result := λ A a, Ok a.
#[global] Instance result_bind : MBind result := λ A B k r, rbind r k.
#[global] Instance M_ret : MRet M := λ A a, ret a.
#[global] Instance M_bind : MBind M := λ A B k m, bind m k.

(** ** [PersonResourceHelper] *)

Record PersonResourceHelper (Db : Type) := mkHelper {
  db : Db;
  build_profile : PyVal;
  extend_object : PyVal
}.
Arguments db {Db} _.
Arguments build_profile {Db} _.
Arguments extend_object {Db} _.

Section PersonResource.
Context {Db : Type} `{Collaborators Db}.

(** The dictionary literal assigned to [obj.extended]: its nine entries
    are evaluated in the order they are written. *)
Definition extension (d : Db) (p : Person) : result (gmap string PyVal) :=
  citations ← comprehension (get_citation_from_handle d) (citation_list p);
  events ← get_events_for_references d p;
  families ← comprehension (λ h, get_family_by_handle d (Some h))
                (family_list p);
  parent_families ← comprehension (λ h, get_family_by_handle d (Some h))
                (parent_family_list p);
  primary_parent_family ←
    get_family_by_handle d (get_main_parents_family_handle p);
  media ← get_media_for_references d p;
  notes ← comprehension (get_note_from_handle d) (note_list p);
  people ← get_people_for_references d p;
  tags ← comprehension (get_tag_from_handle d) (tag_list p);
  Ok (list_to_map
        [ ("citations", PyList citations);
          ("events", events);
          ("families", PyList families);
          ("parent_families", PyList parent_families);
          ("primary_parent_family", primary_parent_family);
          ("media", media);
          ("notes", PyList notes);
          ("people", people);
          ("tags", PyList tags) ]).

(** [PersonResourceHelper.object_extend(self, obj)] *)
Definition object_extend (self : PersonResourceHelper Db) : M PersonObj :=
  let d := db self in
  when (truthy (build_profile self))
    (obj ← get_obj;
     v ← lift (get_person_profile_for_object d (fields obj) true true);
     set_profile v);;
  when (truthy (extend_object self))
    (obj ← get_obj;
     ext ← lift (extension d (fields obj));
     set_extended ext);;
  get_obj.

(** Every call the dictionary literal makes returns normally. *)
Definition lookups_return (d : Db) (p : Person) : Prop :=
  Forall (λ h, is_ok (get_citation_from_handle d h)) (citation_list p)
  ∧ is_ok (get_events_for_references d p)
  ∧ Forall (λ h, is_ok (get_family_by_handle d (Some h))) (family_list p)
  ∧ Forall (λ h, is_ok (get_family_by_handle d (Some h))) (parent_family_list p)
  ∧ is_ok (get_family_by_handle d (get_main_parents_family_handle p))
  ∧ is_ok (get_media_for_references d p)
  ∧ Forall (λ h, is_ok (get_note_from_handle d h)) (note_list p)
  ∧ is_ok (get_people_for_references d p)
  ∧ Forall (λ h, is_ok (get_tag_from_handle d h)) (tag_list p).

(** Broken-reference tolerance as the data model words it: the expansion
    returns, every list group holds the resolved members alone, and an
    unresolved scalar reference leaves no entity behind. *)
Definition tolerates_broken_references (d : Db) (p : Person) : Prop :=
  ∃ ext, extension d p = Ok ext
    ∧ ext !! "citations" = Some (PyList
        (resolved_members (get_citation_from_handle d) (citation_list p)))
    ∧ ext !! "families" = Some (PyList
        (resolved_members (λ h, get_family_by_handle d (Some h)) (family_list p)))
    ∧ ext !! "parent_families" = Some (PyList
        (resolved_members (λ h, get_family_by_handle d (Some h))
           (parent_family_list p)))
    ∧ ext !! "notes" = Some (PyList
        (resolved_members (get_note_from_handle d) (note_list p)))
    ∧ ext !! "tags" = Some (PyList
        (resolved_members (get_tag_from_handle d) (tag_list p)))
    ∧ (resolved (get_family_by_handle d (get_main_parents_family_handle p)) = None →
       ext !! "primary_parent_family" = None
       ∨ ext !! "primary_parent_family" = Some PyNone
       ∨ ext !! "primary_parent_family" = Some (PyDict [])).

End PersonResource.

(** ** An in-memory entity store

    One table per entity class, keyed by handle. *)
Record Store := mkStore {
  citations : gmap string Entity;
  events : gmap string Entity;
  families : gmap string Entity;
  media : gmap string Entity;
  notes : gmap string Entity;
  people : gmap string Person;
  tags : gmap string Entity
}.

(** Modelled from the spec: the Entity Store's [get(handle) -> Entity | not
    found], which is outside the repository (Gramps' [DbReadBase]); "not
    found" is the [HandleError] that the Gramps read API raises. *)
Definition fetch (tbl : gmap string Entity) (h : Handle) : result PyVal :=
  match tbl !! h with
  | Some e => Ok (PyObj e)
  | None => Raise (HandleError h)
  end.

(** Modelled from the spec: [Person.get_main_parents_family_handle], the
    "main parents" lookup of the Gramps library: the first entry of the
    parent-family list, or [None]. *)
Definition main_parents (p : Person) : option Handle :=
  head (parent_family_list p).

(** Modelled from the spec: [util.get_family_by_handle]; a scalar reference
    resolves to one entity or is omitted (an empty mapping) if unresolved. *)
Definition family_by_handle (st : Store) (h : option Handle) : PyVal :=
  match h ≫= (λ h, families st !! h) with
  | Some e => PyObj e
  | None => PyDict []
  end.

(** Modelled from the spec: the [util] helpers over lists of reference
    records; a list reference resolves to a list with unresolved members
    dropped, order preserved among the resolved ones. *)
Definition for_references (tbl : gmap string Entity) (refs : list Ref) : PyVal :=
  PyList (omap (λ r, PyObj <$> tbl !! ref r) refs).

Definition person_entity (p : Person) : Entity :=
  {| ent_kind := KPerson; ent_handle := handle p; ent_gramps_id := gramps_id p |}.

(** Modelled from the spec: [util.get_person_profile_for_object]; the
    identity entries and the vital entries (without age) are always there,
    the family entries when [with_family], the event list when
    [with_events].  The store model carries no dates, so the vital entries
    hold the event type alone. *)
Definition person_profile (st : Store) (p : Person)
    (with_family with_events : bool) : PyVal :=
  PyDict
    ([ ("handle", PyStr (handle p));
       ("gramps_id", PyStr (gramps_id p));
       ("sex", PyStr (match gender p with
                      | Female => "F" | Male => "M" | UnknownGender => "U"
                      end));
       ("birth", PyDict [("type", PyStr "Birth")]);
       ("death", PyDict [("type", PyStr "Death")]) ]
     ++ (if with_family then
           [ ("primary_parent_family", family_by_handle st (main_parents p));
             ("other_parent_families",
              PyList (family_by_handle st ∘ Some <$> tail (parent_family_list p)));
             ("families",
              PyList (family_by_handle st ∘ Some <$> family_list p)) ]
         else [])
     ++ (if with_events then
           [ ("events", for_references (events st) (event_ref_list p)) ]
         else [])).

#[global] Instance store_collaborators : Collaborators Store := {|
  get_citation_from_handle st := fetch (citations st);
  get_note_from_handle st := fetch (notes st);
  get_tag_from_handle st := fetch (tags st);
  get_main_parents_family_handle := main_parents;
  get_family_by_handle st h := Ok (family_by_handle st h);
  get_events_for_references st p :=
    Ok (for_references (events st) (event_ref_list p));
  get_media_for_references st p :=
    Ok (for_references (media st) (media_list p));
  get_people_for_references st p :=
    Ok (for_references (person_entity <$> people st) (person_ref_list p));
  get_person_profile_for_object st p with_family with_events :=
    Ok (person_profile st p with_family with_events)
|}.

(** ** Rule sets

    Modelled from the spec: the rule-set combinator and the predicate
    registry live in the [filter] module and in Gramps' rule classes;
    [object_filter] only hands the request to [apply_filter_rules], whose
    source is missing.  The definitions below follow the
    spec's words: every predicate of the rule list is evaluated against
    every candidate, the results are combined per entity with the chosen
    function, an empty rule list matches everything whatever the function,
    and [invert] complements the combined result. *)

Inductive Combinator := And | Or | Xor | One.

Record RuleSet := mkRuleSet {
  function : Combinator;
  invert : bool;
  rules : list (Store → Person → bool)
}.

(** The number of predicates that hold. *)
Definition true_count (bs : list bool) : nat :=
  length (List.filter id bs).

(** Modelled from the spec: [and]: all true; [or]: at least one true;
    [xor]: true count is odd; [one]: true count is exactly one; an empty
    rule list is vacuously true under each of them. *)
Definition combine (f : Combinator) (bs : list bool) : bool :=
  match bs with
  | [] => true
  | _ :: _ =>
      match f with
      | And => forallb id bs
      | Or => existsb id bs
      | Xor => Nat.odd (true_count bs)
      | One => Nat.eqb (true_count bs) 1
      end
  end.

(** The per-predicate boolean vector of one entity. *)
Definition evaluate_all (rs : RuleSet) (st : Store) (p : Person) : list bool :=
  (λ r, r st p) <$> rules rs.

(** Modelled from the spec: the membership test of one entity; [invert]
    complements the final boolean after combination. *)
Definition member (rs : RuleSet) (st : Store) (p : Person) : bool :=
  let b := combine (function rs) (evaluate_all rs st p) in
  if invert rs then negb b else b.

(** The full candidate set: every person of the store. *)
Definition candidates (st : Store) : gset string := dom (people st).

(** Modelled from the spec: [select(ruleset, store) -> set of handle]. *)
Definition select (rs : RuleSet) (st : Store) : gset string :=
  dom (filter (λ hp, member rs st hp.2 = true) (people st)).

(** *** The wire format and the person registry *)

Record Rule := mkRule {
  rule_name : string;
  rule_values : list string
}.

Record RuleSpec := mkRuleSpec {
  spec_function : option string;
  spec_invert : option bool;
  spec_rules : list Rule
}.

Inductive QueryError :=
  | UnknownPredicate (name : string)
  | MalformedRuleSpec.

(** Modelled from the spec: the person predicates the spec's scenarios
    name; [IsFemale] is [gender = female], [MultipleMarriages] is a
    [family_list] longer than one.  None of them takes values or reads the
    store. *)
Definition is_female : Store → Person → bool :=
  λ _ p, bool_decide (gender p = Female).

Definition is_male : Store → Person → bool :=
  λ _ p, bool_decide (gender p = Male).

Definition has_unknown_gender : Store → Person → bool :=
  λ _ p, bool_decide (gender p = UnknownGender).

Definition multiple_marriages : Store → Person → bool :=
  λ _ p, bool_decide (1 < length (family_list p))%nat.

(** The registry of the person kind: a rule name resolves to a predicate
    that takes the rule's values. *)
Definition person_rules (name : string) : option (list string → Store → Person → bool) :=
  if String.eqb name "IsFemale" then Some (λ _, is_female)
  else if String.eqb name "IsMale" then Some (λ _, is_male)
  else if String.eqb name "HasUnknownGender" then Some (λ _, has_unknown_gender)
  else if String.eqb name "MultipleMarriages" then Some (λ _, multiple_marriages)
  else None.

(** Absence of a function means [and]. *)
Definition parse_function (f : option string) : option Combinator :=
  match f with
  | None => Some And
  | Some s =>
      if String.eqb s "and" then Some And
      else if String.eqb s "or" then Some Or
      else if String.eqb s "xor" then Some Xor
      else if String.eqb s "one" then Some One
      else None
  end.

Fixpoint resolve_rules (rs : list Rule) : QueryError + list (Store → Person → bool) :=
  match rs with
  | [] => inr []
  | r :: rest =>
      match person_rules (rule_name r) with
      | None => inl (UnknownPredicate (rule_name r))
      | Some mk =>
          match resolve_rules rest with
          | inl e => inl e
          | inr ps => inr (mk (rule_values r) :: ps)
          end
      end
  end.

(** Rule-set construction: an unknown name fails here, before any
    evaluation. *)
Definition build_ruleset (s : RuleSpec) : QueryError + RuleSet :=
  match parse_function (spec_function s) with
  | None => inl MalformedRuleSpec
  | Some f =>
      match resolve_rules (spec_rules s) with
      | inl e => inl e
      | inr ps =>
          inr {| function := f;
                 invert := default false (spec_invert s);
                 rules := ps |}
      end
  end.

(** The rule set with its invert flag flipped. *)
Definition toggle_invert (rs : RuleSet) : RuleSet :=
  {| function := function rs; invert := negb (invert rs); rules := rules rs |}.

(** The wire-level rule set of the [xor] scenario. *)
Definition xor_scenario : RuleSpec :=
  {| spec_function := Some "xor"; spec_invert := None;
     spec_rules := [ mkRule "IsFemale" []; mkRule "MultipleMarriages" [] ] |}.

(** The xor claim read literally: whatever the rule list and the invert
    flag, an entity is selected iff an odd number of predicates hold. *)
Definition xor_selects_iff_odd (rs : RuleSet) (st : Store) (h : Handle) (p : Person) : Prop :=
  h ∈ select rs st ↔ Nat.odd (true_count (evaluate_all rs st p)) = true.

(** ** The sort engine

    Modelled from the spec: sorting happens in the base resource, whose
    source is missing.  Each sort key maps to a pure extraction function
    producing a comparable scalar; ties are broken by the entity's handle
    ascending, in both directions. *)

Inductive SortKey :=
  | ByBirth | ByChange | ByDeath | ByGender | ByGrampsId
  | ByName | ByPrivate | BySoundex | BySurname.

Inductive Direction := Ascending | Descending.

(** The usual lexical order on handles. *)
Definition handle_le (a b : string) : Prop := String_as_OT.compare a b ≠ Gt.

#[global] Instance handle_le_dec : RelDecision handle_le.
Proof. intros a b. unfold handle_le. apply _. Defined.

Section SortEngine.
(** The extraction functions: date ordinal, collation key of a text under
    the locale, soundex rank, boolean. *)
Context (extract : SortKey → option string → Person → Z).

(** [a] may stand before [b]. *)
Definition precedes (key : SortKey) (dir : Direction) (locale : option string)
    (a b : Person) : Prop :=
  match dir with
  | Ascending => extract key locale a < extract key locale b
  | Descending => extract key locale b < extract key locale a
  end
  ∨ (extract key locale a = extract key locale b
     ∧ handle_le (handle a) (handle b)).

#[global] Instance precedes_dec key dir locale : RelDecision (precedes key dir locale).
Proof. intros a b. unfold precedes. destruct dir; apply _. Defined.

(** Modelled from the spec:
    [order(entities, sort_key, direction, locale) -> ordered sequence]. *)
Definition order (entities : list Person) (key : SortKey) (dir : Direction)
    (locale : option string) : list Person :=
  merge_sort (precedes key dir locale) entities.

(** Two entities tie when the key does not tell them apart. *)
Definition tied (key : SortKey) (locale : option string) (a b : Person) : Prop :=
  extract key locale a = extract key locale b.

(** The maximal runs of tied neighbours of a sequence, in order. *)
Fixpoint tie_runs (key : SortKey) (locale : option string) (l : list Person)
    : list (list Person) :=
  match l with
  | [] => []
  | a :: l' =>
      match tie_runs key locale l' with
      | [] => [[a]]
      | [] :: runs => [a] :: runs
      | (b :: run) :: runs =>
          if decide (extract key locale a = extract key locale b)
          then (a :: b :: run) :: runs
          else [a] :: (b :: run) :: runs
      end
  end.

(** The sequence read backwards, each run of tied entities kept as it
    stands. *)
Definition reverse_keeping_ties (key : SortKey) (locale : option string)
    (l : list Person) : list Person :=
  concat (reverse (tie_runs key locale l)).
End SortEngine.

(** ** Example data *)

Definition ex_entity (k : Kind) (h id : string) : Entity :=
  {| ent_kind := k; ent_handle := h; ent_gramps_id := id |}.

(** A person with a non-empty list in every reference field and two
    parent families. *)
Definition lewis : Person :=
  {| handle := "GNUJQCL9MD64AM56OH"; gramps_id := "I0044"; gender := Male;
     change := 1185438865; private := false;
     citation_list := ["C0001"; "C0002"];
     event_ref_list := [mkRef "E0001" "Primary"; mkRef "E0002" "Primary"];
     family_list := ["F0003"];
     parent_family_list := ["F0001"; "F0002"];
     media_list := [mkRef "O0001" ""];
     note_list := ["N0001"];
     person_ref_list := [mkRef "0PWJQCZYFXOS0HGREE" "Godparent"];
     tag_list := ["T0001"] |}.

Definition mary : Person :=
  {| handle := "0PWJQCZYFXOS0HGREE"; gramps_id := "I0138"; gender := Female;
     change := 1185438865; private := false;
     citation_list := []; event_ref_list := [];
     family_list := ["F0003"]; parent_family_list := ["F0004"];
     media_list := []; note_list := []; person_ref_list := [];
     tag_list := [] |}.

(** A person whose only citation handle is not in the store. *)
Definition dangling : Person :=
  {| handle := "cc8205d872f532ab14e"; gramps_id := "I2110"; gender := Male;
     change := 1185438865; private := false;
     citation_list := ["C0404"]; event_ref_list := [];
     family_list := ["F0005"; "F0006"]; parent_family_list := [];
     media_list := []; note_list := []; person_ref_list := [];
     tag_list := [] |}.

Definition ex_table (k : Kind) (hs : list string) : gmap string Entity :=
  list_to_map ((λ h, (h, ex_entity k h h)) <$> hs).

Definition ex_store : Store :=
  {| citations := ex_table KCitation ["C0001"; "C0002"];
     events := ex_table KEvent ["E0001"; "E0002"];
     families := ex_table KFamily ["F0001"; "F0002"; "F0003"; "F0004"];
     media := ex_table KMedia ["O0001"];
     notes := ex_table KNote ["N0001"];
     people := list_to_map ((λ p, (handle p, p)) <$> [lewis; mary; dangling]);
     tags := ex_table KTag ["T0001"] |}.

(** A request that asks for the expansion alone, and requests for a profile
    with one option each. *)
Definition extend_request : PersonResourceHelper Store :=
  {| db := ex_store; build_profile := PyBool false; extend_object := PyBool true |}.

Definition plain_request : PersonResourceHelper Store :=
  {| db := ex_store; build_profile := PyBool false; extend_object := PyBool false |}.

Definition profile_request (options : list string) : PersonResourceHelper Store :=
  {| db := ex_store; build_profile := PyList (PyStr <$> options);
     extend_object := PyBool false |}.

(** An extraction over the data the person record carries: the change
    timestamp, the gender code and the privacy flag; the keys whose data
    the record does not carry rank every entity alike. *)
Definition ex_extract (key : SortKey) (locale : option string) (p : Person) : Z :=
  match key with
  | ByChange => change p
  | ByGender => gender_code (gender p)
  | ByPrivate => if private p then 1 else 0
  | _ => 0
  end.

(** The keys of the side map, and the names of the fields they come from. *)
Definition group_names : list string :=
  [ "citations"; "events"; "families"; "parent_families";
    "primary_parent_family"; "media"; "notes"; "people"; "tags" ].

Definition source_field_names : list string :=
  [ "citation_list"; "event_ref_list"; "family_list"; "parent_family_list";
    "media_list"; "note_list"; "person_ref_list"; "tag_list" ].

(** The length of a list-valued group of a side map, if there is one. *)
Definition group_length (ext : gmap string PyVal) (name : string) : option nat :=
  match ext !! name with
  | Some (PyList l) => Some (length l)
  | _ => None
  end.

(** [lewis] with a second citation handle that the store does not hold:
    every reference list is non-empty, one reference dangles. *)
Definition lewis_dangling : Person :=
  {| handle := handle lewis; gramps_id := gramps_id lewis;
     gender := gender lewis; change := change lewis; private := private lewis;
     citation_list := ["C0001"; "C0404"];
     event_ref_list := event_ref_list lewis;
     family_list := family_list lewis;
     parent_family_list := parent_family_list lewis;
     media_list := media_list lewis;
     note_list := note_list lewis;
     person_ref_list := person_ref_list lewis;
     tag_list := tag_list lewis |}.

(** A non-empty list in every reference field. *)
Definition every_reference_list_nonempty (p : Person) : Prop :=
  citation_list p ≠ [] ∧ event_ref_list p ≠ [] ∧ family_list p ≠ []
  ∧ parent_family_list p ≠ [] ∧ media_list p ≠ [] ∧ note_list p ≠ []
  ∧ person_ref_list p ≠ [] ∧ tag_list p ≠ [].

(** [object_extend] returns the object with a side map of the nine named
    groups. *)
Definition nine_groups_attached {Db : Type} `{Collaborators Db}
    (self : PersonResourceHelper Db) (obj : PersonObj) : Prop :=
  ∃ obj' ext,
    object_extend self obj = (obj', Ok obj')
    ∧ extended obj' = Some ext
    ∧ dom ext = list_to_set group_names
    ∧ size ext = 9%nat.

(** ** The order of the calls of the expansion *)

(** The exception a call raised, if it raised. *)
Definition raised {A} (r : result A) : option PyExc :=
  match r with
  | Ok _ => None
  | Raise e => Some e
  end.

(** The first exception of a sequence of calls. *)
Fixpoint first_raised (calls : list (option PyExc)) : option PyExc :=
  match calls with
  | [] => None
  | Some e :: _ => Some e
  | None :: rest => first_raised rest
  end.

(** The calls the dictionary literal of [object_extend] makes, in the order
    it makes them. *)
Definition extension_calls {Db : Type} `{Collaborators Db}
    (d : Db) (p : Person) : list (option PyExc) :=
  ((λ h, raised (get_citation_from_handle d h)) <$> citation_list p)
  ++ [raised (get_events_for_references d p)]
  ++ ((λ h, raised (get_family_by_handle d (Some h))) <$> family_list p)
  ++ ((λ h, raised (get_family_by_handle d (Some h))) <$> parent_family_list p)
  ++ [raised (get_family_by_handle d (get_main_parents_family_handle p))]
  ++ [raised (get_media_for_references d p)]
  ++ ((λ h, raised (get_note_from_handle d h)) <$> note_list p)
  ++ [raised (get_people_for_references d p)]
  ++ ((λ h, raised (get_tag_from_handle d h)) <$> tag_list p).

(** The members of a list-valued group of a side map. *)
Definition group_members (ext : gmap string PyVal) (name : string) : list PyVal :=
  match ext !! name with
  | Some (PyList l) => l
  | _ => []
  end.

(** ** Bookmark and tree resources

    [bookmark.py] and [tree.py]: handlers that read the database and hand
    the value to [self.response], or abort.  An outcome records the payload
    given to [self.response], the status given to [abort], or the exception
    of a database call that left the handler. *)

Inductive HttpOutcome :=
  | Response (payload : PyVal)
  | Abort (status : Z)
  | Failed (e : PyExc).

Definition respond (r : result PyVal) : HttpOutcome :=
  match r with
  | Ok v => Response v
  | Raise e => Failed e
  end.

(** The bookmark getters of the database's read API. *)
Class BookmarkDb (Db : Type) := {
  get_bookmarks : Db → result PyVal;
  get_citation_bookmarks : Db → result PyVal;
  get_event_bookmarks : Db → result PyVal;
  get_family_bookmarks : Db → result PyVal;
  get_media_bookmarks : Db → result PyVal;
  get_note_bookmarks : Db → result PyVal;
  get_place_bookmarks : Db → result PyVal;
  get_repo_bookmarks : Db → result PyVal;
  get_source_bookmarks : Db → result PyVal
}.

(** [BookmarkResource.get(self, bookmark_type)] *)
Definition BookmarkResource_get {Db : Type} `{BookmarkDb Db}
    (d : Db) (bookmark_type : string) : HttpOutcome :=
  if String.eqb bookmark_type "bookmarks" then respond (get_bookmarks d)
  else if String.eqb bookmark_type "citation" then
    respond (get_citation_bookmarks d)
  else if String.eqb bookmark_type "event" then respond (get_event_bookmarks d)
  else if String.eqb bookmark_type "family" then respond (get_family_bookmarks d)
  else if String.eqb bookmark_type "media" then respond (get_media_bookmarks d)
  else if String.eqb bookmark_type "note" then respond (get_note_bookmarks d)
  else if String.eqb bookmark_type "place" then respond (get_place_bookmarks d)
  else if String.eqb bookmark_type "repo" then respond (get_repo_bookmarks d)
  else if String.eqb bookmark_type "source" then respond (get_source_bookmarks d)
  else Abort 404.

(** [BookmarksResource.get(self)] *)
Definition BookmarksResource_get : HttpOutcome :=
  Response (PyList (PyStr <$>
    [ "bookmarks"; "citation"; "event"; "family"; "media"; "note"; "place";
      "repo"; "source" ])).

(** The strings of a payload that is a list of strings. *)
Definition payload_strings (o : HttpOutcome) : list string :=
  match o with
  | Response (PyList l) =>
      omap (λ v, match v with PyStr s => Some s | _ => None end) l
  | _ => []
  end.

(** *** Dictionaries as Python keeps them: in insertion order *)

Fixpoint dict_get (k : string) (d : list (string * PyVal)) : option PyVal :=
  match d with
  | [] => None
  | (k', v) :: rest => if String.eqb k' k then Some v else dict_get k rest
  end.

(** [d[k] = v]: an existing key keeps its place, a new one goes last. *)
Fixpoint dict_set (k : string) (v : PyVal) (d : list (string * PyVal))
    : list (string * PyVal) :=
  match d with
  | [] => [(k, v)]
  | (k', v') :: rest =>
      if String.eqb k' k then (k, v) :: rest else (k', v') :: dict_set k v rest
  end.

(** [d.update(other)] *)
Definition dict_update (d other : list (string * PyVal)) : list (string * PyVal) :=
  foldl (λ acc kv, dict_set kv.1 kv.2 acc) d other.

(** The entry of a dictionary value. *)
Definition payload_get (k : string) (v : PyVal) : option PyVal :=
  match v with
  | PyDict d => dict_get k d
  | _ => None
  end.

(** The tree getters of the database's read API. *)
Class TreeDb (Db : Type) := {
  get_default_handle : Db → result PyVal;
  get_mediapath : Db → result PyVal;
  get_researcher : Db → result PyVal;
  get_save_path : Db → result PyVal;
  get_summary : Db → result PyVal;
  get_surname_list : Db → result PyVal
}.

(** The parsed query arguments of the tree resource. *)
Record TreeArgs := mkTreeArgs {
  surnames : bool
}.

(** The body of [TreeResource.get(self, args)], run on the arguments that
    the [use_args] decorator has parsed; a query the decorator cannot
    parse never reaches it. *)
Definition TreeResource_get {Db : Type} `{TreeDb Db}
    (d : Db) (args : TreeArgs) : HttpOutcome :=
  respond
    (default_person ← get_default_handle d;
     mediapath ← get_mediapath d;
     researcher ← get_researcher d;
     savepath ← get_save_path d;
     summary ← get_summary d;
     let result :=
       [ ("default_person", default_person);
         ("mediapath", mediapath);
         ("researcher", researcher);
         ("savepath", savepath);
         ("summary", summary) ] in
     if surnames args then
       surname_list ← get_surname_list d;
       Ok (PyDict (dict_update result [("surnames", surname_list)]))
     else Ok (PyDict result)).

(** ** The blueprint

    [api/__init__.py]: every endpoint is registered by [register_endpt],
    which adds one URL rule to the blueprint. *)

Inductive Resource :=
  | PersonResource | PeopleResource
  | FamilyResource | FamiliesResource
  | SourceResource | SourcesResource
  | CitationResource | CitationsResource
  | EventResource | EventsResource
  | MediaObjectResource | MediaObjectsResource
  | PlaceResource | PlacesResource
  | RepositoryResource | RepositoriesResource
  | NoteResource | NotesResource
  | TagResource | TagsResource
  | TokenResource | TokenRefreshResource
  | TypeResource | TypesResource
  | TreeResource.

#[global] Instance Resource_eq_dec : EqDecision Resource.
Proof. solve_decision. Defined.

Record UrlRule := mkUrlRule {
  rule_url : string;
  rule_endpoint : string;
  rule_view : Resource
}.

(** [register_endpt(resource, url, name)], with the blueprint it updates
    passed along. *)
Definition register_endpt (resource : Resource) (url name : string)
    (blueprint : list UrlRule) : list UrlRule :=
  blueprint ++ [ {| rule_url := url; rule_endpoint := name;
                    rule_view := resource |} ].

(** The registrations of the module, in the order they run. *)
Definition api_blueprint : list UrlRule :=
  foldl (λ bp reg, reg bp) []
    [ register_endpt PersonResource "/person/<string:handle>" "person";
      register_endpt PeopleResource "/person/" "people";
      register_endpt FamilyResource "/family/<string:handle>" "family";
      register_endpt FamiliesResource "/family/" "families";
      register_endpt SourceResource "/source/<string:handle>" "source";
      register_endpt SourcesResource "/source/" "sources";
      register_endpt CitationResource "/citation/<string:handle>" "citation";
      register_endpt CitationsResource "/citation/" "citations";
      register_endpt EventResource "/event/<string:handle>" "event";
      register_endpt EventsResource "/event/" "events";
      register_endpt MediaObjectResource "/media/<string:handle>" "media_object";
      register_endpt MediaObjectsResource "/media/" "media_objects";
      register_endpt PlaceResource "/place/<string:handle>" "place";
      register_endpt PlacesResource "/place/" "places";
      register_endpt RepositoryResource "/repository/<string:handle>" "repository";
      register_endpt RepositoriesResource "/repository/" "repositories";
      register_endpt NoteResource "/note/<string:handle>" "note";
      register_endpt NotesResource "/note/" "notes";
      register_endpt TagResource "/tag/<string:handle>" "tag";
      register_endpt TagsResource "/tag/" "tags";
      register_endpt TokenResource "/login/" "token";
      register_endpt TokenRefreshResource "/refresh/" "token_refresh";
      register_endpt TypeResource "/type/<string:gramps_type>" "type";
      register_endpt TypesResource "/type/" "types";
      register_endpt TreeResource "/tree/" "tree" ].

(** The entity kinds served by a pair of routes. *)
Definition entity_kinds : list string :=
  [ "person"; "family"; "source"; "citation"; "event"; "media"; "place";
    "repository"; "note"; "tag" ].

(** Tree getters that answer with fixed values, and the same with a
    surname list that cannot be read. *)
Definition ex_tree_db (surname_list : result PyVal) : TreeDb unit :=
  {| get_default_handle _ := Ok (PyStr "GNUJQCL9MD64AM56OH");
     get_mediapath _ := Ok (PyStr "{GRAMPS_RESOURCES}/example/gramps");
     get_researcher _ := Ok (PyDict [("name", PyStr "Alex Roitman")]);
     get_save_path _ := Ok (PyStr "/app/example");
     get_summary _ := Ok (PyDict [("Number of individuals", PyStr "2157")]);
     get_surname_list _ := surname_list |}.

(** * Properties of the expansion *)

Lemma rbind_Ok {A B} (r : result A) (k : A → result B) b :
  rbind r k = Ok b ↔ ∃ a, r = Ok a ∧ k a = Ok b.
Proof.
  destruct r as [a|e]; simpl; split.
  - eauto.
  - intros (a' & [= <-] & Hk). exact Hk.
  - discriminate.
  - intros (a' & [=] & _).
Qed.

Lemma mbind_result_Ok {A B} (r : result A) (k : A → result B) b :
  (r ≫= k) = Ok b ↔ ∃ a, r = Ok a ∧ k a = Ok b.
Proof. apply rbind_Ok. Qed.

Lemma comprehension_Ok {A B} (f : A → result B) l vs :
  comprehension f l = Ok vs ↔ Forall2 (λ h v, f h = Ok v) l vs.
Proof.
  revert vs. induction l as [|h t IH]; intros vs; simpl.
  - split.
    + intros [= <-]. constructor.
    + intros Hf. apply Forall2_nil_inv_l in Hf. by subst.
  - rewrite rbind_Ok. split.
    + intros (v & Hh & Ht). apply rbind_Ok in Ht as (ws & Ht & [= <-]).
      constructor; [done|]. by apply IH.
    + intros Hf. apply Forall2_cons_inv_l in Hf as (v & ws & Hh & Ht & ->).
      exists v. split; [done|]. apply rbind_Ok. exists ws.
      split; [by apply IH|done].
Qed.

(** A comprehension yields one element per element of its source. *)
Lemma comprehension_length {A B} (f : A → result B) l vs :
  comprehension f l = Ok vs → length vs = length l.
Proof. rewrite comprehension_Ok. intros Hf. symmetry. by eapply Forall2_length. Qed.

Lemma comprehension_is_ok {A B} (f : A → result B) l :
  is_ok (comprehension f l) ↔ Forall (λ h, is_ok (f h)) l.
Proof.
  unfold is_ok. induction l as [|h t IH]; simpl.
  - split; [constructor | eauto].
  - rewrite Forall_cons, <- IH. split.
    + intros (vs & Hvs). apply rbind_Ok in Hvs as (v & Hh & Ht).
      apply rbind_Ok in Ht as (ws & Ht & _). eauto.
    + intros ((v & ->) & (ws & ->)). simpl. eauto.
Qed.

Section Expansion.
Context {Db : Type} `{Collaborators Db}.

(** What a side map that was returned is made of. *)
Lemma extension_inv d p ext :
  extension d p = Ok ext →
  ∃ cs ev fs pfs ppf md ns pp ts,
    comprehension (get_citation_from_handle d) (citation_list p) = Ok cs
    ∧ get_events_for_references d p = Ok ev
    ∧ comprehension (λ h, get_family_by_handle d (Some h)) (family_list p) = Ok fs
    ∧ comprehension (λ h, get_family_by_handle d (Some h))
        (parent_family_list p) = Ok pfs
    ∧ get_family_by_handle d (get_main_parents_family_handle p) = Ok ppf
    ∧ get_media_for_references d p = Ok md
    ∧ comprehension (get_note_from_handle d) (note_list p) = Ok ns
    ∧ get_people_for_references d p = Ok pp
    ∧ comprehension (get_tag_from_handle d) (tag_list p) = Ok ts
    ∧ ext = list_to_map
        [ ("citations", PyList cs); ("events", ev); ("families", PyList fs);
          ("parent_families", PyList pfs); ("primary_parent_family", ppf);
          ("media", md); ("notes", PyList ns); ("people", pp);
          ("tags", PyList ts) ].
Proof.
  unfold extension. intros Hx.
  apply mbind_result_Ok in Hx as (cs & Hcs & Hx).
  apply mbind_result_Ok in Hx as (ev & Hev & Hx).
  apply mbind_result_Ok in Hx as (fs & Hfs & Hx).
  apply mbind_result_Ok in Hx as (pfs & Hpfs & Hx).
  apply mbind_result_Ok in Hx as (ppf & Hppf & Hx).
  apply mbind_result_Ok in Hx as (md & Hmd & Hx).
  apply mbind_result_Ok in Hx as (ns & Hns & Hx).
  apply mbind_result_Ok in Hx as (pp & Hpp & Hx).
  apply mbind_result_Ok in Hx as (ts & Hts & Hx).
  injection Hx as <-.
  exists cs, ev, fs, pfs, ppf, md, ns, pp, ts. repeat split; done.
Qed.

(** The expansion has no handler of its own: it returns exactly when
    every call it makes returns. *)
Lemma extension_is_ok d p : is_ok (extension d p) ↔ lookups_return d p.
Proof.
  unfold lookups_return. rewrite <- !comprehension_is_ok. split.
  - intros (ext & Hx). apply extension_inv in Hx.
    destruct Hx as (cs & ev & fs & pfs & ppf & md & ns & pp & ts & Hx).
    destruct Hx as (? & ? & ? & ? & ? & ? & ? & ? & ? & _).
    unfold is_ok. repeat split; eauto.
  - intros ((cs & Hcs) & (ev & Hev) & (fs & Hfs) & (pfs & Hpfs) & (ppf & Hppf)
            & (md & Hmd) & (ns & Hns) & (pp & Hpp) & (ts & Hts)).
    unfold extension, is_ok.
    rewrite Hcs, Hev, Hfs, Hpfs, Hppf, Hmd, Hns, Hpp, Hts. simpl. eauto.
Qed.

(** The keys of a side map are the nine group names, whatever the groups
    hold. *)
Lemma extension_groups d p ext :
  extension d p = Ok ext →
  dom ext = list_to_set group_names ∧ size ext = 9%nat.
Proof.
  intros Hx. apply extension_inv in Hx.
  destruct Hx as (cs & ev & fs & pfs & ppf & md & ns & pp & ts & Hx).
  destruct Hx as (_ & _ & _ & _ & _ & _ & _ & _ & _ & ->).
  assert (dom (list_to_map (M := gmap string PyVal)
            [ ("citations", PyList cs); ("events", ev); ("families", PyList fs);
              ("parent_families", PyList pfs); ("primary_parent_family", ppf);
              ("media", md); ("notes", PyList ns); ("people", pp);
              ("tags", PyList ts) ]) = list_to_set group_names) as Hdom.
  { rewrite dom_list_to_map_L. reflexivity. }
  split; [exact Hdom|].
  rewrite <- size_dom, Hdom. apply size_list_to_set.
  unfold group_names. compute_done.
Qed.

(** The list groups of a side map: one entry per handle, in order. *)
Lemma extension_list_groups d p ext :
  extension d p = Ok ext →
  ∃ cs fs pfs ns ts ppf,
    (ext !! "citations" = Some (PyList cs)
     ∧ Forall2 (λ h v, get_citation_from_handle d h = Ok v) (citation_list p) cs)
    ∧ (ext !! "families" = Some (PyList fs)
       ∧ Forall2 (λ h v, get_family_by_handle d (Some h) = Ok v) (family_list p) fs)
    ∧ (ext !! "parent_families" = Some (PyList pfs)
       ∧ Forall2 (λ h v, get_family_by_handle d (Some h) = Ok v)
           (parent_family_list p) pfs)
    ∧ (ext !! "notes" = Some (PyList ns)
       ∧ Forall2 (λ h v, get_note_from_handle d h = Ok v) (note_list p) ns)
    ∧ (ext !! "tags" = Some (PyList ts)
       ∧ Forall2 (λ h v, get_tag_from_handle d h = Ok v) (tag_list p) ts)
    ∧ (ext !! "primary_parent_family" = Some ppf
       ∧ get_family_by_handle d (get_main_parents_family_handle p) = Ok ppf).
Proof.
  intros Hx. apply extension_inv in Hx.
  destruct Hx as (cs & ev & fs & pfs & ppf & md & ns & pp & ts & Hx).
  destruct Hx as (Hcs & _ & Hfs & Hpfs & Hppf & _ & Hns & _ & Hts & ->).
  apply comprehension_Ok in Hcs, Hfs, Hpfs, Hns, Hts.
  exists cs, fs, pfs, ns, ts, ppf.
  repeat split; try done.
Qed.

(** The parent-family group is as long as the parent-family list. *)
Lemma parent_families_length d p ext :
  extension d p = Ok ext →
  group_length ext "parent_families" = Some (length (parent_family_list p)).
Proof.
  intros Hx. apply extension_list_groups in Hx.
  destruct Hx as (cs & fs & pfs & ns & ts & ppf & _ & _ & (Hl & Hf) & _).
  unfold group_length. rewrite Hl. f_equal. symmetry. by eapply Forall2_length.
Qed.

(** The two steps of [object_extend], run on an object. *)
Lemma object_extend_unfold self obj :
  object_extend self obj =
    let obj1 :=
      if truthy (build_profile self) then
        match get_person_profile_for_object (db self) (fields obj) true true with
        | Ok v => ({| fields := fields obj; profile := Some v;
                      extended := extended obj |}, Ok tt)
        | Raise e => (obj, Raise e)
        end
      else (obj, Ok tt) in
    match obj1 with
    | (o, Raise e) => (o, Raise e)
    | (o, Ok _) =>
        if truthy (extend_object self) then
          match extension (db self) (fields o) with
          | Ok ext => let o' := {| fields := fields o; profile := profile o;
                                    extended := Some ext |} in (o', Ok o')
          | Raise e => (o, Raise e)
          end
        else (o, Ok o)
    end.
Proof.
  unfold object_extend, mbind, M_bind, bind, when, get_obj, lift, set_profile,
    set_extended, ret.
  destruct (truthy (build_profile self)); simpl.
  - destruct (get_person_profile_for_object _ _ _ _); simpl; [|done].
    destruct (truthy (extend_object self)); simpl; [|done].
    by destruct (extension _ _).
  - destruct (truthy (extend_object self)); simpl; [|done].
    by destruct (extension _ _).
Qed.
End Expansion.

Section ObjectExtend.
Context {Db : Type} `{Collaborators Db}.

(** C2 (as amended): the expansion has no handler of its own and drops
    nothing.  It returns exactly when every lookup it makes returns; a
    lookup that raises makes the whole expansion raise.  When it returns,
    each list group holds one entry per handle of its reference list, in
    the order of the list: the value the lookup returned for that handle,
    an entity or whatever placeholder the lookup chose.  The scalar group
    holds what the family lookup returned for the main-parents handle. *)
Theorem expansion_keeps_every_member (d : Db) (p : Person) :
  (is_ok (extension d p) ↔ lookups_return d p)
  ∧ (∀ h e, h ∈ citation_list p → get_citation_from_handle d h = Raise e →
       ∃ e', extension d p = Raise e')
  ∧ (∀ ext, extension d p = Ok ext →
       ∃ cs fs pfs ns ts ppf,
         (ext !! "citations" = Some (PyList cs)
          ∧ Forall2 (λ h v, get_citation_from_handle d h = Ok v)
              (citation_list p) cs)
         ∧ (ext !! "families" = Some (PyList fs)
            ∧ Forall2 (λ h v, get_family_by_handle d (Some h) = Ok v)
                (family_list p) fs)
         ∧ (ext !! "parent_families" = Some (PyList pfs)
            ∧ Forall2 (λ h v, get_family_by_handle d (Some h) = Ok v)
                (parent_family_list p) pfs)
         ∧ (ext !! "notes" = Some (PyList ns)
            ∧ Forall2 (λ h v, get_note_from_handle d h = Ok v) (note_list p) ns)
         ∧ (ext !! "tags" = Some (PyList ts)
            ∧ Forall2 (λ h v, get_tag_from_handle d h = Ok v) (tag_list p) ts)
         ∧ (ext !! "primary_parent_family" = Some ppf
            ∧ get_family_by_handle d (get_main_parents_family_handle p) = Ok ppf)).
Proof.
  split; [apply extension_is_ok|]. split.
  - intros h e Hin Hh.
    destruct (extension d p) as [ext|e'] eqn:Hx; [|eauto].
    assert (is_ok (extension d p)) as Hok by (by exists ext).
    apply extension_is_ok in Hok as (Hc & _).
    rewrite Forall_forall in Hc. destruct (Hc h Hin) as (v & Hv). congruence.
  - intros ext. apply extension_list_groups.
Qed.

(** C3 (as amended): when the expansion is requested and the calls it
    makes return (every lookup of the expansion and, if a profile is
    requested as well, the profile helper), for a person with non-empty
    reference lists or not,
    [object_extend] returns the object with a side map of exactly nine
    groups: citations, events, families, parent_families,
    primary_parent_family, media, notes, people, tags; no group is keyed
    by the name of a source field, and the entity's fields are those it
    had. *)
Theorem extend_all_nine_groups (self : PersonResourceHelper Db) (obj : PersonObj) :
  truthy (extend_object self) = true →
  (truthy (build_profile self) = true →
   is_ok (get_person_profile_for_object (db self) (fields obj) true true)) →
  lookups_return (db self) (fields obj) →
  ∃ obj' ext,
    object_extend self obj = (obj', Ok obj')
    ∧ fields obj' = fields obj
    ∧ extended obj' = Some ext
    ∧ dom ext = list_to_set group_names
    ∧ size ext = 9%nat
    ∧ Forall (λ k, ext !! k = None) source_field_names.
Proof.
  intros Hext Hprof Hret. apply extension_is_ok in Hret as (ext & Hx).
  destruct (extension_groups _ _ _ Hx) as (Hdom & Hsize).
  assert (Forall (λ k, ext !! k = None) source_field_names) as Hsrc.
  { apply Forall_forall. intros k Hk. apply not_elem_of_dom. rewrite Hdom.
    unfold source_field_names in Hk. unfold group_names.
    repeat (apply elem_of_cons in Hk as [->|Hk]; [compute_done|]).
    by apply elem_of_nil in Hk. }
  rewrite object_extend_unfold, Hext.
  destruct (truthy (build_profile self)) eqn:Hbp.
  - destruct (Hprof eq_refl) as (v & ->). simpl. rewrite Hx.
    eexists _, ext. repeat split; done.
  - simpl. rewrite Hx. eexists _, ext. repeat split; done.
Qed.

(** C4: [object_extend] leaves every field of the entity as it was,
    whether it returns or raises; the object it returns is the object it
    was given, with the profile under [profile] and the expansion under
    [extended]; a step that was not requested leaves its attribute
    alone. *)
Theorem object_extend_frame (self : PersonResourceHelper Db) (obj : PersonObj) :
  fields (object_extend self obj).1 = fields obj
  ∧ (∀ o, (object_extend self obj).2 = Ok o → o = (object_extend self obj).1)
  ∧ (truthy (build_profile self) = false →
     profile (object_extend self obj).1 = profile obj)
  ∧ (truthy (extend_object self) = false →
     extended (object_extend self obj).1 = extended obj)
  ∧ (∀ o, (object_extend self obj).2 = Ok o →
     truthy (extend_object self) = true →
     extended o = match extension (db self) (fields obj) with
                  | Ok ext => Some ext
                  | Raise _ => None
                  end).
Proof.
  rewrite object_extend_unfold.
  destruct (truthy (build_profile self)), (truthy (extend_object self)); simpl;
    try destruct (get_person_profile_for_object _ _ _ _); simpl;
    try destruct (extension _ _); simpl;
    repeat split; intros; simplify_eq; done.
Qed.

(** C9: the profile that [object_extend] attaches does not depend on the
    options that were requested: every request that asks for a profile at
    all gets the one built with [with_family] and [with_events] both set,
    so a request for the families alone and a request for the events
    alone end in the same object. *)
Theorem profile_ignores_requested_options
    (d : Db) (eo options1 options2 : PyVal) (obj : PersonObj) :
  truthy options1 = true →
  truthy options2 = true →
  object_extend {| db := d; build_profile := options1; extend_object := eo |} obj
  = object_extend {| db := d; build_profile := options2; extend_object := eo |} obj
  ∧ ∀ v, get_person_profile_for_object d (fields obj) true true = Ok v →
      profile (object_extend
                 {| db := d; build_profile := options1; extend_object := eo |}
                 obj).1 = Some v.
Proof.
  intros H1 H2. rewrite !object_extend_unfold. simpl. rewrite H1, H2.
  split; [done|]. intros v ->. simpl.
  destruct (truthy eo); simpl; [|done]. by destruct (extension _ _).
Qed.

(** C10: with neither a profile nor an expansion requested,
    [object_extend] returns the object it was given and leaves it as it
    was; an entity fresh from the store comes back with no [profile] and
    no [extended] attribute. *)
Theorem object_extend_nothing_requested
    (self : PersonResourceHelper Db) (obj : PersonObj) :
  truthy (build_profile self) = false →
  truthy (extend_object self) = false →
  object_extend self obj = (obj, Ok obj)
  ∧ ∀ p, obj = from_store p →
      ∃ o, (object_extend self obj).2 = Ok o
        ∧ fields o = p ∧ profile o = None ∧ extended o = None.
Proof.
  intros Hbp Heo. rewrite object_extend_unfold, Hbp, Heo. simpl.
  split; [done|]. intros p ->. by exists (from_store p).
Qed.
End ObjectExtend.

(** C1: the expansion's [parent_families] group is built from the whole
    parent-family list, the primary family included: whenever a side map
    is returned the group is exactly as long as [parent_family_list], not
    one shorter.  At the person [lewis], whose primary parent family is
    [F0001] and whose parent-family list has two entries, the group holds
    both families. *)
Theorem parent_families_keeps_primary_family :
  (∀ (Db : Type) (C : Collaborators Db) (d : Db) (p : Person)
     (ext : gmap string PyVal),
     extension d p = Ok ext →
     group_length ext "parent_families" = Some (length (parent_family_list p)))
  ∧ get_main_parents_family_handle (Db := Store) lewis = Some "F0001"
  ∧ length (parent_family_list lewis) = 2%nat
  ∧ ∃ ext, extension ex_store lewis = Ok ext
      ∧ ext !! "parent_families" =
          Some (PyList [ PyObj (ex_entity KFamily "F0001" "F0001");
                         PyObj (ex_entity KFamily "F0002" "F0002") ])
      ∧ group_length ext "parent_families" = Some 2%nat.
Proof.
  split; [intros Db C d p ext; apply parent_families_length|].
  split; [reflexivity|]. split; [reflexivity|].
  destruct (extension ex_store lewis) as [ext|e] eqn:Hx.
  - exists ext. split; [reflexivity|].
    pose proof (extension_list_groups _ _ _ Hx) as Hg.
    destruct Hg as (cs & fs & pfs & ns & ts & ppf & _ & _ & (Hl & Hf) & _).
    assert (pfs = [ PyObj (ex_entity KFamily "F0001" "F0001");
                    PyObj (ex_entity KFamily "F0002" "F0002") ]) as ->.
    { apply comprehension_Ok in Hf. vm_compute in Hf. by injection Hf. }
    unfold group_length. rewrite Hl. done.
  - exfalso. vm_compute in Hx. discriminate.
Qed.

(** C2: the person [dangling] cites a handle the store does not hold; the
    citation lookup raises [HandleError] and the expansion raises with it,
    so broken references are not tolerated. *)
Lemma dangling_citation_not_tolerated :
  ¬ tolerates_broken_references ex_store dangling.
Proof.
  intros (ext & Hx & _). vm_compute in Hx. discriminate.
Qed.

(** C3: [lewis_dangling] has a non-empty list in every reference field,
    but his second citation is not in the store: the expansion raises with
    the citation lookup and no side map is attached. *)
Lemma nonempty_lists_without_side_map :
  every_reference_list_nonempty lewis_dangling
  ∧ truthy (extend_object extend_request) = true
  ∧ object_extend extend_request (from_store lewis_dangling)
    = (from_store lewis_dangling, Raise (HandleError "C0404"))
  ∧ ¬ nine_groups_attached extend_request (from_store lewis_dangling).
Proof.
  split; [by repeat split|]. split; [reflexivity|].
  assert (object_extend extend_request (from_store lewis_dangling)
          = (from_store lewis_dangling, Raise (HandleError "C0404"))) as Hrun
    by reflexivity.
  split; [exact Hrun|].
  intros (obj' & ext & Hok & _). rewrite Hrun in Hok. discriminate Hok.
Qed.

(** The request [extend_request] on [lewis], who has a non-empty list in
    every reference field, all of them resolving in [ex_store]. *)
Lemma extend_all_nine_groups_witness :
  ∃ obj' ext,
    object_extend extend_request (from_store lewis) = (obj', Ok obj')
    ∧ fields obj' = fields (from_store lewis)
    ∧ extended obj' = Some ext
    ∧ dom ext = list_to_set group_names
    ∧ size ext = 9%nat
    ∧ Forall (λ k, ext !! k = None) source_field_names.
Proof.
  apply (extend_all_nine_groups extend_request (from_store lewis)).
  - reflexivity.
  - simpl. discriminate.
  - unfold lookups_return, is_ok. simpl.
    repeat split; repeat constructor; eauto.
Defined.

(** A profile of [mary] requested with [families] alone and one requested
    with [events] alone. *)
Lemma profile_ignores_requested_options_witness :
  object_extend (profile_request ["families"]) (from_store mary)
  = object_extend (profile_request ["events"]) (from_store mary)
  ∧ ∀ v, get_person_profile_for_object ex_store (fields (from_store mary)) true true
           = Ok v →
      profile (object_extend (profile_request ["families"]) (from_store mary)).1
      = Some v.
Proof.
  apply (profile_ignores_requested_options ex_store (PyBool false)
           (PyList [PyStr "families"]) (PyList [PyStr "events"]) (from_store mary));
    reflexivity.
Defined.

(** The request [plain_request] on [lewis], fresh from the store. *)
Lemma object_extend_nothing_requested_witness :
  object_extend plain_request (from_store lewis)
  = (from_store lewis, Ok (from_store lewis))
  ∧ ∀ p, from_store lewis = from_store p →
      ∃ o, (object_extend plain_request (from_store lewis)).2 = Ok o
        ∧ fields o = p ∧ profile o = None ∧ extended o = None.
Proof.
  apply (object_extend_nothing_requested plain_request (from_store lewis));
    reflexivity.
Defined.

(** With the profile helper of the store model, the profile requested
    with [families] alone carries the event list as well, while the helper
    itself leaves it out when [with_events] is unset. *)
Example families_request_profile_has_events :
  dict_keys <$> profile (object_extend (profile_request ["families"])
                           (from_store mary)).1
  = Some [ "handle"; "gramps_id"; "sex"; "birth"; "death";
           "primary_parent_family"; "other_parent_families"; "families";
           "events" ]
  ∧ dict_keys (person_profile ex_store mary true false)
    = [ "handle"; "gramps_id"; "sex"; "birth"; "death";
        "primary_parent_family"; "other_parent_families"; "families" ].
Proof. split; reflexivity. Qed.

Lemma omap_length_le {A B} (f : A → option B) (l : list A) :
  (length (omap f l) ≤ length l)%nat.
Proof. induction l as [|a l IH]; csimpl; [lia|]. destruct (f a); csimpl; lia. Qed.

Lemma omap_length_lt {A B} (f : A → option B) (l : list A) (a : A) :
  a ∈ l → f a = None → (length (omap f l) < length l)%nat.
Proof.
  induction l as [|b l IH]; intros Hin Ha.
  - by apply elem_of_nil in Hin.
  - csimpl. apply elem_of_cons in Hin as [<-|Hin].
    + rewrite Ha. pose proof (omap_length_le f l). lia.
    + specialize (IH Hin Ha). destruct (f b); csimpl; lia.
Qed.

(** Whatever the lookups do with a handle that does not resolve, the member
    is not dropped: either the lookup raises and the expansion with it, or
    the group keeps an entry for the handle. *)
Lemma unresolved_member_not_dropped {Db : Type} `{Collaborators Db}
    (d : Db) (p : Person) (h : Handle) :
  h ∈ citation_list p →
  resolved (get_citation_from_handle d h) = None →
  ¬ tolerates_broken_references d p.
Proof.
  intros Hin Hres (ext & Hx & Hc & _).
  apply extension_list_groups in Hx.
  destruct Hx as (cs & fs & pfs & ns & ts & ppf & (Hl & Hf) & _).
  rewrite Hl in Hc. injection Hc as ->.
  apply Forall2_length in Hf.
  pose proof (omap_length_lt (λ h, resolved (get_citation_from_handle d h))
                (citation_list p) h Hin Hres) as Hlt.
  unfold resolved_members in Hf. lia.
Qed.

(** The families of [dangling] are not in the store either: the family
    lookup answers with an empty mapping, and both placeholders stay in the
    group. *)
Example dangling_families_kept_as_placeholders :
  comprehension (λ h, get_family_by_handle ex_store (Some h)) (family_list dangling)
  = Ok [PyDict []; PyDict []].
Proof. reflexivity. Qed.

(** * Properties of the rule-set combinator *)

Lemma elem_of_select rs st h :
  h ∈ select rs st ↔ ∃ p, people st !! h = Some p ∧ member rs st p = true.
Proof.
  unfold select. rewrite elem_of_dom. unfold is_Some.
  setoid_rewrite map_lookup_filter_Some. naive_solver.
Qed.

Lemma elem_of_candidates st h :
  h ∈ candidates st ↔ ∃ p, people st !! h = Some p.
Proof. unfold candidates. by rewrite elem_of_dom. Qed.

Lemma select_candidates rs st : select rs st ⊆ candidates st.
Proof.
  intros h. rewrite elem_of_select, elem_of_candidates.
  intros (p & Hp & _). by exists p.
Qed.

Lemma member_toggle_invert rs st p :
  member (toggle_invert rs) st p = negb (member rs st p).
Proof.
  unfold member, toggle_invert, evaluate_all. simpl.
  destruct (invert rs); simpl; [by rewrite negb_involutive|done].
Qed.

Lemma toggle_invert_twice rs : toggle_invert (toggle_invert rs) = rs.
Proof. destruct rs as [f i r]. unfold toggle_invert. simpl. by rewrite negb_involutive. Qed.

Lemma select_toggle_invert rs st :
  select (toggle_invert rs) st = candidates st ∖ select rs st.
Proof.
  apply set_eq. intros h.
  rewrite elem_of_difference, !elem_of_select, elem_of_candidates.
  setoid_rewrite member_toggle_invert. split.
  - intros (p & Hp & Hm). split; [eauto|].
    intros (p' & Hp' & Hm'). simplify_eq. rewrite Hm' in Hm. discriminate.
  - intros ((p & Hp) & Hn). exists p. split; [done|].
    destruct (member rs st p) eqn:Hm; [|done]. destruct Hn. eauto.
Qed.

Lemma member_no_rules rs st p :
  rules rs = [] → member rs st p = negb (invert rs).
Proof.
  intros Hr. unfold member, evaluate_all. rewrite Hr. simpl.
  by destruct (invert rs).
Qed.

(** C5 (as amended): a rule set with an empty rule list and invert unset
    selects every candidate, whatever its combinator; with invert set it
    selects none, since the inversion complements the vacuously true
    result. *)
Theorem empty_rule_list_selects_all (rs : RuleSet) (st : Store) :
  rules rs = [] →
  select rs st = if invert rs then ∅ else candidates st.
Proof.
  intros Hr. apply set_eq. intros h. rewrite elem_of_select.
  setoid_rewrite (member_no_rules rs st _ Hr).
  destruct (invert rs); simpl.
  - rewrite elem_of_empty. split; [|done]. by intros (p & _ & Hm).
  - rewrite elem_of_candidates. split.
    + intros (p & Hp & _). by exists p.
    + intros (p & Hp). by exists p.
Qed.

(** An empty [or] over the example store. *)
Lemma empty_rule_list_selects_all_witness :
  select {| function := Or; invert := false; rules := [] |} ex_store
  = if invert {| function := Or; invert := false; rules := [] |}
    then ∅ else candidates ex_store.
Proof.
  apply (empty_rule_list_selects_all
           {| function := Or; invert := false; rules := [] |} ex_store).
  reflexivity.
Defined.

(** C5: an empty rule list with invert set selects nobody, while the store
    has candidates. *)
Lemma empty_rule_list_inverted_selects_none :
  rules {| function := And; invert := true; rules := [] |} = []
  ∧ select {| function := And; invert := true; rules := [] |} ex_store
    ≠ candidates ex_store.
Proof.
  split; [done|]. intros Heq.
  assert (handle lewis ∈ candidates ex_store) as Hin.
  { apply elem_of_candidates. by exists lewis. }
  rewrite <- Heq in Hin. apply elem_of_select in Hin as (p & _ & Hm).
  rewrite member_no_rules in Hm by done. discriminate.
Qed.

(** C6: inversion is applied once, to the combined result of an entity,
    never to a predicate: the selection with invert set is exactly the
    complement, within the candidates, of the selection of the same rules
    without invert; flipping the flag of any rule set complements its
    selection, and flipping twice, or complementing twice, gives the
    original selection back. *)
Theorem invert_selects_complement
    (f : Combinator) (ps : list (Store → Person → bool)) (st : Store) :
  select {| function := f; invert := true; rules := ps |} st
  = candidates st ∖ select {| function := f; invert := false; rules := ps |} st
  ∧ (∀ rs, select (toggle_invert rs) st = candidates st ∖ select rs st)
  ∧ (∀ rs, select (toggle_invert (toggle_invert rs)) st = select rs st)
  ∧ (∀ rs, candidates st ∖ (candidates st ∖ select rs st) = select rs st)
  ∧ ∀ rs p, member rs st p
            = xorb (invert rs) (combine (function rs) (evaluate_all rs st p)).
Proof.
  split.
  { apply (select_toggle_invert {| function := f; invert := false; rules := ps |}). }
  split; [intros rs; apply select_toggle_invert|].
  split; [intros rs; by rewrite toggle_invert_twice|]. split.
  - intros rs. pose proof (select_candidates rs st) as Hsub.
    apply set_eq. intros h. rewrite !elem_of_difference. split.
    + intros (Hc & Hn). destruct (decide (h ∈ select rs st)); [done|].
      destruct Hn. done.
    + intros Hsel. split; [by apply Hsub|]. by intros (_ & Hn).
  - intros rs p. unfold member. by destruct (invert rs), (combine _ _).
Qed.

(** The inverted [and] of the test suite: a man with a single family is
    selected, which inverting each predicate would not do. *)
Example invert_is_not_per_predicate :
  handle lewis ∈ select {| function := And; invert := true;
                            rules := [is_male; multiple_marriages] |} ex_store
  ∧ handle lewis ∉ select {| function := And; invert := false;
                              rules := [λ st p, negb (is_male st p);
                                        λ st p, negb (multiple_marriages st p)] |}
                           ex_store.
Proof.
  rewrite !elem_of_select. split.
  - by exists lewis.
  - intros (p & Hp & Hm). vm_compute in Hp. injection Hp as <-.
    vm_compute in Hm. discriminate.
Qed.

Lemma combine_xor bs :
  bs ≠ [] → combine Xor bs = Nat.odd (true_count bs).
Proof. by destruct bs. Qed.

Lemma evaluate_all_nil rs st p : evaluate_all rs st p = [] ↔ rules rs = [].
Proof. unfold evaluate_all. by destruct (rules rs). Qed.

(** C7 (as amended): a rule set with combinator [xor] and a non-empty rule
    list selects an entity iff the number of its predicates that hold is
    odd when invert is unset, and iff it is even when invert is set; with
    an empty rule list and invert unset every entity is selected, although
    none of its predicates holds.  The
    two-rule set of the scenario is built with combinator [xor] and invert
    unset, and selects exactly the candidates that satisfy one of
    [IsFemale] and [MultipleMarriages] and not the other. *)
Theorem xor_selects_odd_count :
  (∀ rs st p, function rs = Xor → rules rs ≠ [] →
     member rs st p
     = xorb (invert rs) (Nat.odd (true_count (evaluate_all rs st p))))
  ∧ (∀ rs st h p, function rs = Xor → rules rs ≠ [] → invert rs = false →
       people st !! h = Some p →
       xor_selects_iff_odd rs st h p)
  ∧ (∀ rs st h p, function rs = Xor → rules rs ≠ [] →
       people st !! h = Some p →
       (h ∈ select rs st
        ↔ xorb (invert rs) (Nat.odd (true_count (evaluate_all rs st p))) = true))
  ∧ (∀ rs st h p, function rs = Xor → rules rs = [] → invert rs = false →
       people st !! h = Some p →
       h ∈ select rs st ∧ true_count (evaluate_all rs st p) = 0%nat)
  ∧ ∃ rs, build_ruleset xor_scenario = inr rs
      ∧ function rs = Xor ∧ invert rs = false
      ∧ rules rs = [is_female; multiple_marriages]
      ∧ ∀ st h p, people st !! h = Some p →
          (h ∈ select rs st ↔
             (gender p = Female ∧ (length (family_list p) ≤ 1)%nat)
             ∨ (gender p ≠ Female ∧ (1 < length (family_list p))%nat)).
Proof.
  assert (∀ rs st p, function rs = Xor → rules rs ≠ [] →
            member rs st p
            = xorb (invert rs) (Nat.odd (true_count (evaluate_all rs st p))))
    as Hmember.
  { intros rs st p Hf Hr. unfold member. rewrite Hf, combine_xor.
    - by destruct (invert rs), (Nat.odd _).
    - by rewrite evaluate_all_nil. }
  split; [exact Hmember|]. split; [|split; [|split]].
  - intros rs st h p Hf Hr Hi Hp. unfold xor_selects_iff_odd.
    rewrite elem_of_select. split.
    + intros (p' & Hp' & Hm). simplify_eq.
      by rewrite Hmember, Hi in Hm.
    + intros Hodd. exists p. split; [done|]. by rewrite Hmember, Hi.
  - intros rs st h p Hf Hr Hp. rewrite elem_of_select. split.
    + intros (p' & Hp' & Hm). simplify_eq. by rewrite Hmember in Hm.
    + intros Hodd. exists p. split; [done|]. by rewrite Hmember.
  - intros rs st h p Hf Hr Hi Hp. split.
    + apply elem_of_select. exists p. split; [done|].
      by rewrite member_no_rules, Hi.
    + unfold evaluate_all. by rewrite Hr.
  - exists {| function := Xor; invert := false;
              rules := [is_female; multiple_marriages] |}.
    split; [reflexivity|].
    split; [done|]. split; [done|]. split; [done|].
    intros st h p Hp. rewrite elem_of_select.
    assert (member {| function := Xor; invert := false;
                      rules := [is_female; multiple_marriages] |} st p
            = xorb (bool_decide (gender p = Female))
                   (bool_decide (1 < length (family_list p))%nat)) as Hxor.
    { unfold member, evaluate_all, true_count. simpl.
      unfold is_female, multiple_marriages.
      by destruct (bool_decide _), (bool_decide _). }
    split.
    + intros (p' & Hp' & Hm). simplify_eq. rewrite Hxor in Hm.
      destruct (decide (gender p = Female)) as [Hg|Hg],
               (decide (1 < length (family_list p))%nat) as [Hl|Hl];
        rewrite ?(bool_decide_eq_true_2 _ Hg), ?(bool_decide_eq_false_2 _ Hg),
          ?(bool_decide_eq_true_2 _ Hl), ?(bool_decide_eq_false_2 _ Hl) in Hm;
        simpl in Hm; try discriminate.
      * left. split; [done|lia].
      * right. by split.
    + intros Hcase. exists p. split; [done|]. rewrite Hxor.
      destruct Hcase as [(Hg & Hl)|(Hg & Hl)].
      * rewrite (bool_decide_eq_true_2 _ Hg).
        rewrite (bool_decide_eq_false_2 (1 < length (family_list p))%nat) by lia.
        done.
      * rewrite (bool_decide_eq_false_2 _ Hg), (bool_decide_eq_true_2 _ Hl).
        done.
Qed.

(** C7: with an empty rule list [xor] selects an entity although none of
    its predicates holds; with invert set it leaves out an entity of which
    exactly one predicate holds. *)
Lemma xor_not_always_odd_count :
  ¬ xor_selects_iff_odd {| function := Xor; invert := false; rules := [] |}
      ex_store (handle lewis) lewis
  ∧ ¬ xor_selects_iff_odd
        {| function := Xor; invert := true;
           rules := [is_female; multiple_marriages] |}
        ex_store (handle mary) mary.
Proof.
  unfold xor_selects_iff_odd. split.
  - intros [Hsel _].
    assert (Nat.odd (true_count (evaluate_all
              {| function := Xor; invert := false; rules := [] |} ex_store lewis))
            = true) as Hodd; [|discriminate Hodd].
    apply Hsel. apply elem_of_select. by exists lewis.
  - intros [_ Hsel].
    assert (handle mary ∈ select {| function := Xor; invert := true;
                                     rules := [is_female; multiple_marriages] |}
                            ex_store) as Hin by (by apply Hsel).
    apply elem_of_select in Hin as (p & Hp & Hm).
    vm_compute in Hp. injection Hp as <-. vm_compute in Hm. discriminate.
Qed.

(** * Properties of the sort engine *)

Lemma handle_le_alt a b : handle_le a b ↔ String_as_OT.lt a b ∨ a = b.
Proof.
  unfold handle_le, String_as_OT.lt.
  destruct (String_as_OT.compare_spec a b) as [Heq|Hlt|Hgt].
  - split; [by right|done].
  - split; [by left|done].
  - split; [done|]. intros [Hlt| ->].
    + discriminate.
    + exfalso. by apply (irreflexivity String_as_OT.lt b).
Qed.

#[global] Instance handle_le_refl : Reflexive handle_le.
Proof. intros a. apply handle_le_alt. by right. Qed.

#[global] Instance handle_le_trans : Transitive handle_le.
Proof.
  intros a b c. rewrite !handle_le_alt. intros [Hab| ->] [Hbc| ->]; eauto.
  left. by transitivity b.
Qed.

#[global] Instance handle_le_total : Total handle_le.
Proof.
  intros a b. rewrite !handle_le_alt.
  destruct (String_as_OT.compare_spec a b) as [Heq|Hlt|Hgt]; eauto.
Qed.

#[global] Instance handle_le_antisym : AntiSymm (=) handle_le.
Proof.
  intros a b. rewrite !handle_le_alt. intros [Hab| ->] [Hba|Heq]; try done.
  exfalso. apply (irreflexivity String_as_OT.lt a). by transitivity b.
Qed.

Section SortProperties.
Context (extract : SortKey → option string → Person → Z).
Context (key : SortKey) (locale : option string).

Local Abbreviation k := (extract key locale).
Local Abbreviation before := (precedes extract key).
Local Abbreviation runs := (tie_runs extract key locale).

#[global] Instance precedes_total dir : Total (before dir locale).
Proof.
  intros a b. unfold precedes.
  destruct (Z.lt_trichotomy (k a) (k b)) as [Hlt|[Heq|Hgt]].
  - destruct dir; [left|right]; by left.
  - destruct (total handle_le (handle a) (handle b)); [left|right]; right; done.
  - destruct dir; [right|left]; by left.
Qed.

#[global] Instance precedes_refl dir : Reflexive (before dir locale).
Proof. intros a. right. split; [done|reflexivity]. Qed.

#[global] Instance precedes_trans dir : Transitive (before dir locale).
Proof.
  intros a b c. unfold precedes.
  intros [Hab|(Hab & Hhab)] [Hbc|(Hbc & Hhbc)].
  - left. destruct dir; lia.
  - left. destruct dir; lia.
  - left. destruct dir; lia.
  - right. split; [lia|]. by transitivity (handle b).
Qed.

(** Two entities that may stand either way round tie and have the same
    handle. *)
Lemma precedes_antisym dir a b :
  before dir locale a b → before dir locale b a →
  k a = k b ∧ handle a = handle b.
Proof.
  unfold precedes. intros [Hab|(Hab & Hhab)] [Hba|(Hba & Hhba)];
    try (destruct dir; lia).
  split; [done|]. by apply (anti_symm handle_le).
Qed.

(** Between entities that do not tie, the two directions are each
    other's opposite; between tied entities they agree. *)
Lemma precedes_descending a b :
  before Descending locale a b ↔
    (k a ≠ k b ∧ before Ascending locale b a)
    ∨ (k a = k b ∧ before Ascending locale a b).
Proof.
  unfold precedes. split.
  - intros [Hlt|(Heq & Hh)].
    + left. split; [lia|]. by left.
    + right. split; [done|]. by right.
  - intros [(Hne & [Hlt|(Heq & _)])|(Heq & [Hlt|(_ & Hh)])].
    + by left.
    + congruence.
    + lia.
    + by right.
Qed.

Lemma order_permutation entities dir :
  order extract entities key dir locale ≡ₚ entities.
Proof. apply merge_sort_Permutation. Qed.

Lemma order_sorted entities dir :
  StronglySorted (before dir locale) (order extract entities key dir locale).
Proof. unfold order. apply (StronglySorted_merge_sort _). Qed.

(** An ordered permutation is the only one, as long as handles tell the
    tied entities of the sequence apart. *)
Lemma order_unique entities dir l :
  (∀ a b, a ∈ entities → b ∈ entities →
     k a = k b → handle a = handle b → a = b) →
  l ≡ₚ entities →
  StronglySorted (before dir locale) l →
  order extract entities key dir locale = l.
Proof.
  intros Hid Hperm Hsorted.
  apply (StronglySorted_unique_strong (before dir locale));
    [|apply order_sorted|done|by rewrite order_permutation].
  intros a b Ha Hb Hab Hba.
  rewrite order_permutation in Ha. rewrite Hperm in Hb.
  destruct (precedes_antisym dir a b) as [Hk Hh]; [done..|]. by apply Hid.
Qed.

Lemma tie_runs_cons a l :
  runs (a :: l) =
    match runs l with
    | [] => [[a]]
    | [] :: rs => [a] :: rs
    | (b :: run) :: rs =>
        if decide (k a = k b) then (a :: b :: run) :: rs
        else [a] :: (b :: run) :: rs
    end.
Proof. reflexivity. Qed.

(** The runs of a sequence, read in order, are the sequence. *)
Lemma tie_runs_concat l : concat (runs l) = l.
Proof.
  induction l as [|a l IH]; [done|]. rewrite tie_runs_cons.
  destruct (runs l) as [|[|b run] rs]; simpl in *.
  - by subst.
  - by subst.
  - destruct (decide (k a = k b)); simpl; by rewrite IH.
Qed.

(** The first run starts with the head of the sequence and holds
    entities tied with it. *)
Lemma tie_runs_head b l :
  ∃ run rs, runs (b :: l) = (b :: run) :: rs ∧ Forall (λ x, k x = k b) run.
Proof.
  revert b. induction l as [|c l IH]; intros b.
  - exists [], []. by split.
  - destruct (IH c) as (run & rs & Hc & Hrun).
    rewrite tie_runs_cons, Hc. destruct (decide (k b = k c)) as [Heq|Hne].
    + exists (c :: run), rs. split; [done|]. constructor; [done|].
      eapply Forall_impl; [exact Hrun|]. simpl. intros x Hx. congruence.
    + exists [], ((c :: run) :: rs). by split.
Qed.

Lemma concat_reverse_permutation (ls : list (list Person)) :
  concat (reverse ls) ≡ₚ concat ls.
Proof.
  induction ls as [|r ls IH]; [done|].
  rewrite reverse_cons, concat_app. simpl.
  rewrite app_nil_r, IH. apply Permutation_app_comm.
Qed.

Lemma reverse_keeping_ties_permutation l :
  reverse_keeping_ties extract key locale l ≡ₚ l.
Proof.
  unfold reverse_keeping_ties.
  by rewrite concat_reverse_permutation, tie_runs_concat.
Qed.

(** In an ascending sequence the key can only grow. *)
Lemma ascending_key_le a b :
  before Ascending locale a b → k a ≤ k b.
Proof. unfold precedes. intros [?|[? _]]; lia. Qed.

(** Read backwards with its runs kept, an ascending sequence is a
    descending one; the runs after the first hold larger keys. *)
Lemma reverse_keeping_ties_sorted l :
  StronglySorted (before Ascending locale) l →
  StronglySorted (before Descending locale)
    (reverse_keeping_ties extract key locale l)
  ∧ match runs l with
    | [] => True
    | r :: rs => ∀ y x, y ∈ r → x ∈ concat rs → k y < k x
    end.
Proof.
  unfold reverse_keeping_ties.
  induction l as [|a l IH]; intros Hs.
  - split; [constructor|done].
  - apply StronglySorted_cons in Hs as [Ha Hs].
    rewrite Forall_forall in Ha.
    destruct (IH Hs) as [IHs IHk]. clear IH.
    destruct l as [|b l].
    { split; [repeat constructor|]. simpl. intros y x _ Hx.
      by apply elem_of_nil in Hx. }
    destruct (tie_runs_head b l) as (run & rs & Hruns & Hrun).
    pose proof (tie_runs_concat (b :: l)) as Hcat.
    rewrite Hruns in Hcat, IHs, IHk.
    change (concat ((b :: run) :: rs)) with ((b :: run) ++ concat rs)%list in Hcat.
    rewrite tie_runs_cons, Hruns.
    rewrite reverse_cons, concat_app in IHs. simpl in IHs.
    rewrite app_nil_r in IHs.
    apply StronglySorted_app in IHs as (Hcross & Hrest & Hfirst).
    assert (∀ y, y ∈ b :: run → k y = k b) as Hkey.
    { intros y Hy. apply elem_of_cons in Hy as [->|Hy]; [done|].
      rewrite Forall_forall in Hrun. by apply Hrun. }
    assert (∀ y, y ∈ b :: run → y ∈ b :: l) as Hin.
    { intros y Hy. rewrite <- Hcat. apply elem_of_app. by left. }
    destruct (decide (k a = k b)) as [Heq|Hne].
    + split.
      * rewrite reverse_cons, concat_app. simpl. rewrite app_nil_r.
        apply StronglySorted_app_2; [|done|].
        -- intros x y Hx Hy.
           apply elem_of_cons in Hy as [->|Hy]; [|by apply Hcross].
           left. rewrite Heq. apply (IHk b x); [by left|].
           by rewrite <- concat_reverse_permutation.
        -- apply StronglySorted_cons. split; [|done].
           apply Forall_forall. intros y Hy. right.
           split; [rewrite (Hkey y Hy); done|].
           destruct (Ha y (Hin y Hy)) as [Hlt|[_ Hh]]; [|done].
           rewrite (Hkey y Hy) in Hlt. lia.
      * intros y x Hy Hx. apply elem_of_cons in Hy as [->|Hy].
        -- rewrite Heq. apply (IHk b x); [by left|done].
        -- by apply IHk.
    + assert (∀ x, x ∈ b :: l → k a < k x) as Hlt.
      { intros x Hx.
        assert (k a < k b) as Hab.
        { destruct (Ha b) as [?|[? _]]; [by left|done|done]. }
        apply elem_of_cons in Hx as [->|Hx]; [done|].
        apply StronglySorted_cons in Hs as [Hb _].
        rewrite Forall_forall in Hb.
        pose proof (ascending_key_le b x (Hb x Hx)). lia. }
      split.
      * rewrite reverse_cons, concat_app. simpl.
        rewrite reverse_cons, concat_app. simpl. rewrite !app_nil_r.
        apply StronglySorted_app_2; [| |repeat constructor].
        -- intros x y Hx Hy. apply list_elem_of_singleton in Hy as ->.
           left. apply Hlt. rewrite <- Hcat.
           apply elem_of_app in Hx as [Hx|Hx]; apply elem_of_app;
             [right|by left]. by rewrite <- concat_reverse_permutation.
        -- apply StronglySorted_app_2; done.
      * intros y x Hy Hx. apply list_elem_of_singleton in Hy as ->.
        change (concat ((b :: run) :: rs))
          with ((b :: run) ++ concat rs)%list in Hx.
        rewrite Hcat in Hx. by apply Hlt.
Qed.

(** Reading an ascending sequence without ties backwards gives a
    descending one. *)
Lemma reverse_sorted l :
  (∀ a b, a ∈ l → b ∈ l → k a = k b → a = b) →
  StronglySorted (before Ascending locale) l →
  StronglySorted (before Descending locale) (reverse l).
Proof.
  induction l as [|a l IH]; intros Hties Hs; [constructor|].
  apply StronglySorted_cons in Hs as [Ha Hs]. rewrite Forall_forall in Ha.
  rewrite reverse_cons. apply StronglySorted_app_2; [| |repeat constructor].
  - intros x y Hx Hy. apply list_elem_of_singleton in Hy as ->.
    rewrite elem_of_reverse in Hx.
    destruct (Ha x Hx) as [Hlt|[Heq Hh]]; [by left|].
    rewrite (Hties a x); [reflexivity|by left|by right|done].
  - apply IH; [|done]. intros x y Hx Hy. apply Hties; by right.
Qed.
End SortProperties.

Lemma precedes_tied extract key dir locale a b :
  tied extract key locale a b →
  (precedes extract key dir locale a b ↔ handle_le (handle a) (handle b)).
Proof.
  unfold tied, precedes. intros Heq. split.
  - intros [Hlt|[_ Hh]]; [|done]. destruct dir; lia.
  - intros Hh. by right.
Qed.

(** C8: for every sequence, sort key, direction and locale, sorting yields
    a permutation of the sequence that is ordered by the key in the
    requested direction with ties broken by handle ascending; the order is
    total, transitive and antisymmetric up to the handle.  Two entities
    that do not tie stand one way round in the ascending order and the
    other way round in the descending one, and two tied entities stand the
    same way round in both.  When handles tell the entities of the
    sequence apart, the result is the only ordered permutation, and
    sorting in the descending direction yields the ascending sequence read
    backwards with every run of tied entities kept in its handle-ascending
    order; it is the exact reverse when no two entities tie. *)
Theorem order_total_and_reversible
    (extract : SortKey → option string → Person → Z)
    (entities : list Person) (key : SortKey) (locale : option string) :
  (∀ dir,
     order extract entities key dir locale ≡ₚ entities
     ∧ StronglySorted (precedes extract key dir locale)
         (order extract entities key dir locale))
  ∧ (∀ dir a b,
       (precedes extract key dir locale a b ∨ precedes extract key dir locale b a)
       ∧ (precedes extract key dir locale a b →
          precedes extract key dir locale b a →
          tied extract key locale a b ∧ handle a = handle b)
       ∧ (∀ c, precedes extract key dir locale a b →
               precedes extract key dir locale b c →
               precedes extract key dir locale a c)
       ∧ (tied extract key locale a b →
          (precedes extract key dir locale a b ↔ handle_le (handle a) (handle b))))
  ∧ (∀ a b,
       precedes extract key Descending locale a b ↔
         (¬ tied extract key locale a b
          ∧ precedes extract key Ascending locale b a)
         ∨ (tied extract key locale a b
            ∧ precedes extract key Ascending locale a b))
  ∧ ((∀ a b, a ∈ entities → b ∈ entities → handle a = handle b → a = b) →
     (∀ dir l, l ≡ₚ entities →
        StronglySorted (precedes extract key dir locale) l →
        l = order extract entities key dir locale)
     ∧ order extract entities key Descending locale
       = reverse_keeping_ties extract key locale
           (order extract entities key Ascending locale))
  ∧ ((∀ a b, a ∈ entities → b ∈ entities → tied extract key locale a b → a = b) →
     order extract entities key Descending locale
     = reverse (order extract entities key Ascending locale)).
Proof.
  split; [|split; [|split; [|split]]].
  - intros dir. split; [apply order_permutation|apply order_sorted].
  - intros dir a b. split; [apply (total _)|].
    split; [apply precedes_antisym|]. split.
    + intros c Hab Hbc. by transitivity b.
    + apply precedes_tied.
  - intros a b. apply precedes_descending.
  - intros Hid.
    assert (∀ a b, a ∈ entities → b ∈ entities →
              extract key locale a = extract key locale b →
              handle a = handle b → a = b) as Hid' by eauto.
    split.
    + intros dir l Hperm Hsorted. symmetry. by apply order_unique.
    + apply order_unique; [done| |].
      * by rewrite reverse_keeping_ties_permutation, order_permutation.
      * apply reverse_keeping_ties_sorted, order_sorted.
  - intros Hties. apply order_unique.
    + intros a b Ha Hb Hk _. by apply Hties.
    + by rewrite reverse_Permutation, order_permutation.
    + apply reverse_sorted; [|apply order_sorted].
      intros a b Ha Hb. rewrite order_permutation in Ha, Hb. by apply Hties.
Qed.

(** Sorted by gender, [lewis] and [dangling] tie: they stand in the order
    of their handles in both directions. *)
Example order_by_gender :
  order ex_extract [dangling; lewis; mary] ByGender Ascending None
  = [mary; lewis; dangling]
  ∧ order ex_extract [dangling; lewis; mary] ByGender Descending None
    = [lewis; dangling; mary]
  ∧ tie_runs ex_extract ByGender None [mary; lewis; dangling]
    = [[mary]; [lewis; dangling]].
Proof. repeat split; vm_compute; reflexivity. Qed.

(** The three example persons sorted by gender: handles tell them apart,
    and the descending order is the ascending one read backwards with the
    tied pair kept. *)
Lemma order_total_and_reversible_witness :
  (∀ a b, a ∈ [dangling; lewis; mary] → b ∈ [dangling; lewis; mary] →
     handle a = handle b → a = b)
  ∧ order ex_extract [dangling; lewis; mary] ByGender Descending None
    = reverse_keeping_ties ex_extract ByGender None
        (order ex_extract [dangling; lewis; mary] ByGender Ascending None).
Proof.
  assert (∀ a b, a ∈ [dangling; lewis; mary] → b ∈ [dangling; lewis; mary] →
            handle a = handle b → a = b) as Hid.
  { intros a b Ha Hb Hh.
    repeat (apply elem_of_cons in Ha as [->|Ha]);
      repeat (apply elem_of_cons in Hb as [->|Hb]);
      try (by apply elem_of_nil in Ha); try (by apply elem_of_nil in Hb);
      (reflexivity || discriminate Hh). }
  split; [exact Hid|].
  apply (order_total_and_reversible ex_extract [dangling; lewis; mary]
           ByGender None), Hid.
Defined.

(** * Further properties of [object_extend] *)

Lemma first_raised_app l1 l2 :
  first_raised (l1 ++ l2)
  = match first_raised l1 with
    | Some e => Some e
    | None => first_raised l2
    end.
Proof.
  induction l1 as [|[e|] l1 IH]; simpl; [done|done|exact IH].
Qed.

Lemma raised_comprehension {A B} (f : A → result B) (l : list A) :
  raised (comprehension f l) = first_raised ((λ h, raised (f h)) <$> l).
Proof.
  induction l as [|h t IH]; [done|]. csimpl.
  destruct (f h) as [v|e]; csimpl; [|done].
  rewrite <- IH. by destruct (comprehension f t).
Qed.

Section ObjectExtendMore.
Context {Db : Type} `{Collaborators Db}.

(** The expansion raises exactly the exception of the first call that
    fails, in the order the entries of the dictionary literal are written
    (citations, events, families, parent families, primary parent family,
    media, notes, people, tags) and, within a list, in the order of its
    handles; it returns when no call fails. *)
Theorem extension_raises_first_failure (d : Db) (p : Person) :
  raised (extension d p) = first_raised (extension_calls d p).
Proof.
  unfold extension, extension_calls.
  rewrite !first_raised_app, <- !raised_comprehension.
  unfold mbind, result_bind.
  destruct (comprehension (get_citation_from_handle d) _); simpl; [|done].
  destruct (get_events_for_references d p); simpl; [|done].
  destruct (comprehension _ (family_list p)); simpl; [|done].
  destruct (comprehension _ (parent_family_list p)); simpl; [|done].
  destruct (get_family_by_handle d (get_main_parents_family_handle p));
    simpl; [|done].
  destruct (get_media_for_references d p); simpl; [|done].
  destruct (comprehension _ (note_list p)); simpl; [|done].
  destruct (get_people_for_references d p); simpl; [|done].
  by destruct (comprehension _ (tag_list p)).
Qed.

(** How [object_extend] fails.  If a profile is requested and the profile
    helper raises, [object_extend] raises that exception and leaves the
    object exactly as it was, whatever the expansion would have done: the
    expansion is not attempted.  If the profile step is over (the helper
    returned, or no profile was requested) and the requested expansion
    raises, [object_extend] raises the expansion's exception; [extended]
    is as it was, and a requested profile has been assigned and stays
    assigned.  [object_extend] raises in no other way. *)
Theorem object_extend_failure
    (self : PersonResourceHelper Db) (obj : PersonObj) :
  (∀ e, truthy (build_profile self) = true →
     get_person_profile_for_object (db self) (fields obj) true true = Raise e →
     object_extend self obj = (obj, Raise e))
  ∧ (∀ v e, truthy (build_profile self) = true →
       get_person_profile_for_object (db self) (fields obj) true true = Ok v →
       truthy (extend_object self) = true →
       extension (db self) (fields obj) = Raise e →
       object_extend self obj
       = ({| fields := fields obj; profile := Some v; extended := extended obj |},
          Raise e))
  ∧ (∀ e, truthy (build_profile self) = false →
       truthy (extend_object self) = true →
       extension (db self) (fields obj) = Raise e →
       object_extend self obj = (obj, Raise e))
  ∧ (∀ e, (object_extend self obj).2 = Raise e →
       (truthy (build_profile self) = true
        ∧ get_person_profile_for_object (db self) (fields obj) true true = Raise e)
       ∨ (truthy (extend_object self) = true
          ∧ extension (db self) (fields obj) = Raise e
          ∧ (truthy (build_profile self) = true →
             is_ok (get_person_profile_for_object (db self) (fields obj)
                      true true)))).
Proof.
  rewrite object_extend_unfold.
  split; [|split; [|split]].
  - intros e -> ->. done.
  - intros v e -> -> -> Hx. simpl in *. by rewrite Hx.
  - intros e -> -> Hx. simpl in *. by rewrite Hx.
  - intros e. destruct (truthy (build_profile self)); simpl.
    + destruct (get_person_profile_for_object _ _ _ _) as [v|e'] eqn:Hp; simpl.
      * destruct (truthy (extend_object self)); simpl; [|done].
        destruct (extension _ _) as [ext|e'] eqn:Hx; simpl; [done|].
        intros [= ->]. right. simpl in Hx. rewrite ?Hx.
        split; [done|]. split; [done|]. intros _. by exists v.
      * intros [= ->]. by left.
    + destruct (truthy (extend_object self)); simpl; [|done].
      destruct (extension _ _) as [ext|e'] eqn:Hx; simpl; [done|].
      intros [= ->]. right. simpl in Hx. rewrite ?Hx. by split.
Qed.

(** When the main-parents handle is one of the handles of the
    parent-family list, the entity under [primary_parent_family] is also a
    member of the [parent_families] group: both come from the same family
    lookup. *)
Theorem primary_parent_family_among_parent_families
    (d : Db) (p : Person) (h : Handle) (ext : gmap string PyVal) :
  get_main_parents_family_handle p = Some h →
  h ∈ parent_family_list p →
  extension d p = Ok ext →
  ∃ v, ext !! "primary_parent_family" = Some v
    ∧ get_family_by_handle d (Some h) = Ok v
    ∧ v ∈ group_members ext "parent_families".
Proof.
  intros Hmain Hin Hx. apply extension_list_groups in Hx.
  destruct Hx as (cs & fs & pfs & ns & ts & ppf & _ & _ & (Hl & Hf) & _ & _
                  & (Hp & Hppf)).
  rewrite Hmain in Hppf. exists ppf. split; [done|]. split; [done|].
  unfold group_members. rewrite Hl.
  apply list_elem_of_lookup in Hin as (i & Hi).
  destruct (Forall2_lookup_l _ _ _ _ _ Hf Hi) as (v & Hv & Hget).
  rewrite Hppf in Hget. injection Hget as <-.
  apply list_elem_of_lookup. by exists i.
Qed.
End ObjectExtendMore.

(** The person [dangling], asked for a profile and for the expansion: the
    citation lookup fails after the profile has been attached. *)
Lemma object_extend_failure_witness :
  object_extend {| db := ex_store; build_profile := PyBool true;
                   extend_object := PyBool true |} (from_store dangling)
  = ({| fields := dangling;
        profile := Some (person_profile ex_store dangling true true);
        extended := None |},
     Raise (HandleError "C0404")).
Proof.
  destruct (object_extend_failure
              {| db := ex_store; build_profile := PyBool true;
                 extend_object := PyBool true |} (from_store dangling))
    as (_ & Hcase & _).
  apply (Hcase (person_profile ex_store dangling true true)
               (HandleError "C0404")); reflexivity.
Defined.

(** [lewis], whose main-parents family [F0001] heads his parent-family
    list. *)
Lemma primary_parent_family_among_parent_families_witness :
  ∃ ext v, extension ex_store lewis = Ok ext
    ∧ ext !! "primary_parent_family" = Some v
    ∧ get_family_by_handle ex_store (Some "F0001") = Ok v
    ∧ v ∈ group_members ext "parent_families".
Proof.
  destruct (extension ex_store lewis) as [ext|e] eqn:Hx.
  - destruct (primary_parent_family_among_parent_families
                ex_store lewis "F0001" ext) as (v & Hv); [reflexivity| |exact Hx|].
    + apply elem_of_cons. by left.
    + exists ext, v. split; [reflexivity|exact Hv].
  - exfalso. vm_compute in Hx. discriminate.
Defined.

(** * Properties of the bookmark and tree resources *)

Lemma respond_not_abort r status : respond r ≠ Abort status.
Proof. by destruct r. Qed.

(** One comparison of the chain in [BookmarkResource.get]: the type is
    [name] and the getter's value is answered, or the chain goes on. *)
Ltac bookmark_case t name :=
  destruct (String.eqb_spec t name) as [->|?];
  [ split; [split|];
    [ intros Habs; by apply respond_not_abort in Habs
    | intros Hnot; exfalso; apply Hnot; compute_done
    | intros status Habs; by apply respond_not_abort in Habs ]
  | ].

(** [BookmarkResource.get] answers 404 exactly for the bookmark types that
    [BookmarksResource.get] does not list, and never aborts with another
    status; for the listed types, in the order of the list, it hands to
    the response the value of the getter of that type ([bookmarks]: the
    person bookmarks of [get_bookmarks]; [citation]:
    [get_citation_bookmarks]; and so on to [source]), or fails with that
    getter's exception. *)
Theorem bookmark_types_served {Db : Type} `{BookmarkDb Db}
    (d : Db) (bookmark_type : string) :
  (BookmarkResource_get d bookmark_type = Abort 404
   ↔ bookmark_type ∉ payload_strings BookmarksResource_get)
  ∧ (∀ status, BookmarkResource_get d bookmark_type = Abort status → status = 404)
  ∧ BookmarkResource_get d <$> payload_strings BookmarksResource_get
    = respond <$>
        [ get_bookmarks d; get_citation_bookmarks d; get_event_bookmarks d;
          get_family_bookmarks d; get_media_bookmarks d; get_note_bookmarks d;
          get_place_bookmarks d; get_repo_bookmarks d; get_source_bookmarks d ].
Proof.
  assert ((BookmarkResource_get d bookmark_type = Abort 404
           ↔ bookmark_type ∉ [ "bookmarks"; "citation"; "event"; "family";
                               "media"; "note"; "place"; "repo"; "source" ])
          ∧ (∀ status, BookmarkResource_get d bookmark_type = Abort status →
               status = 404)) as [Habort Hstatus].
  { unfold BookmarkResource_get.
    bookmark_case bookmark_type "bookmarks".
    bookmark_case bookmark_type "citation".
    bookmark_case bookmark_type "event".
    bookmark_case bookmark_type "family".
    bookmark_case bookmark_type "media".
    bookmark_case bookmark_type "note".
    bookmark_case bookmark_type "place".
    bookmark_case bookmark_type "repo".
    bookmark_case bookmark_type "source".
    assert (bookmark_type ∉ [ "bookmarks"; "citation"; "event"; "family";
                              "media"; "note"; "place"; "repo"; "source" ])
      as Hnot.
    { intros Hin.
      repeat (apply elem_of_cons in Hin as [Heq|Hin]; [congruence|]).
      by apply elem_of_nil in Hin. }
    split; [by split|]. by intros status [= <-]. }
  split; [exact Habort|]. split; [exact Hstatus|reflexivity].
Qed.

Section TreeResource.
Context {Db : Type}.

(** A response of [TreeResource.get] holds the five entries
    [default_person], [mediapath], [researcher], [savepath] and [summary],
    in this order, each the value of its database getter, followed by
    [surnames] exactly when the surnames were requested. *)
Theorem tree_get_payload `{TreeDb Db} (d : Db) (args : TreeArgs) (payload : PyVal) :
  TreeResource_get d args = Response payload →
  dict_keys payload
  = ([ "default_person"; "mediapath"; "researcher"; "savepath"; "summary" ]
     ++ (if surnames args then ["surnames"] else []))%list
  ∧ Ok <$> payload_get "default_person" payload = Some (get_default_handle d)
  ∧ Ok <$> payload_get "mediapath" payload = Some (get_mediapath d)
  ∧ Ok <$> payload_get "researcher" payload = Some (get_researcher d)
  ∧ Ok <$> payload_get "savepath" payload = Some (get_save_path d)
  ∧ Ok <$> payload_get "summary" payload = Some (get_summary d)
  ∧ Ok <$> payload_get "surnames" payload
    = if surnames args then Some (get_surname_list d) else None.
Proof.
  unfold TreeResource_get, mbind, result_bind.
  destruct (get_default_handle d) as [v1|?]; simpl; [|done].
  destruct (get_mediapath d) as [v2|?]; simpl; [|done].
  destruct (get_researcher d) as [v3|?]; simpl; [|done].
  destruct (get_save_path d) as [v4|?]; simpl; [|done].
  destruct (get_summary d) as [v5|?]; simpl; [|done].
  destruct (surnames args); simpl.
  - destruct (get_surname_list d) as [s|?]; simpl; [|done].
    intros [= <-]. repeat split; reflexivity.
  - intros [= <-]. repeat split; reflexivity.
Qed.

End TreeResource.

(** A tree whose getters all answer, asked for the surnames. *)
Lemma tree_get_payload_witness :
  ∃ payload,
    @TreeResource_get unit (ex_tree_db (Ok (PyList [PyStr "Garner"]))) tt
      {| surnames := true |} = Response payload
    ∧ dict_keys payload
      = [ "default_person"; "mediapath"; "researcher"; "savepath"; "summary";
          "surnames" ]
    ∧ payload_get "surnames" payload = Some (PyList [PyStr "Garner"]).
Proof.
  eexists. split; [reflexivity|].
  destruct (@tree_get_payload unit (ex_tree_db (Ok (PyList [PyStr "Garner"]))) tt
              {| surnames := true |} _ eq_refl) as (Hkeys & _).
  split; [exact Hkeys|reflexivity].
Defined.

(** A surname list that cannot be read fails the request for surnames and
    no other. *)
Example tree_surnames_unreadable :
  @TreeResource_get unit (ex_tree_db (Raise (OtherError "DbError"))) tt
    {| surnames := true |} = Failed (OtherError "DbError")
  ∧ dict_keys <$>
      (match @TreeResource_get unit (ex_tree_db (Raise (OtherError "DbError"))) tt
               {| surnames := false |} with
       | Response payload => Some payload
       | _ => None
       end)
    = Some [ "default_person"; "mediapath"; "researcher"; "savepath"; "summary" ].
Proof. split; reflexivity. Qed.

(** * Properties of the blueprint *)

(** The module registers 25 URL rules; no two of them share a URL, an
    endpoint name or a resource class, and each of the ten entity kinds
    has its item route [/kind/<string:handle>] and its collection route
    [/kind/]. *)
Theorem api_blueprint_rules_distinct :
  length api_blueprint = 25%nat
  ∧ NoDup (rule_url <$> api_blueprint)
  ∧ NoDup (rule_endpoint <$> api_blueprint)
  ∧ NoDup (rule_view <$> api_blueprint)
  ∧ Forall (λ kind,
              ("/" +:+ kind +:+ "/<string:handle>") ∈ (rule_url <$> api_blueprint)
              ∧ ("/" +:+ kind +:+ "/") ∈ (rule_url <$> api_blueprint))
      entity_kinds.
Proof.
  split; [reflexivity|].
  split; [compute_done|]. split; [compute_done|]. split; [compute_done|].
  compute_done.
Qed.

(** * When [object_extend] returns *)

(** [object_extend] returns exactly when each step that was requested
    succeeds: the profile helper returns if a profile was requested, and
    every call of the expansion returns if the expansion was requested.
    The object it returns then carries the helper's profile and the side
    map of the expansion under the attributes that were requested. *)
Theorem object_extend_returns_iff {Db : Type} `{Collaborators Db}
    (self : PersonResourceHelper Db) (obj : PersonObj) :
  (is_ok (object_extend self obj).2
   ↔ (truthy (build_profile self) = true →
      is_ok (get_person_profile_for_object (db self) (fields obj) true true))
     ∧ (truthy (extend_object self) = true →
        lookups_return (db self) (fields obj)))
  ∧ ∀ o, (object_extend self obj).2 = Ok o →
      (truthy (build_profile self) = true →
       Ok <$> profile o
       = Some (get_person_profile_for_object (db self) (fields obj) true true))
      ∧ (truthy (extend_object self) = true →
         Ok <$> extended o = Some (extension (db self) (fields obj))).
Proof.
  rewrite <- extension_is_ok, object_extend_unfold. unfold is_ok.
  destruct (truthy (build_profile self)); simpl;
    [destruct (get_person_profile_for_object _ _ _ _) as [v|e]; simpl|];
    (destruct (truthy (extend_object self)); simpl;
     [destruct (extension _ _) as [ext|e']; simpl|]).
  all: split;
    [ split;
      [ intros (o & Ho); try discriminate Ho; split; intros; try done; eauto
      | intros (Hp & Hx); eauto;
        try (destruct (Hp eq_refl) as (? & [=]));
        try (destruct (Hx eq_refl) as (? & [=])) ]
    | intros o Ho; try discriminate Ho; injection Ho as <-; split; intros;
      try done ].
Qed.
